(** * THCTensor: shape, stride and storage bookkeeping of a strided view

    A shallow embedding of [aten/src/THC/THCTensor.cpp].  A tensor is the
    C struct with its two heap arrays, a storage is a reference-counted
    object living in a heap of storages, and every entry point is a
    computation in a state-and-error monad whose state is that heap
    together with the tensor [self] points to.  An error carries the state
    that had been reached when it was raised: the C code mutates in place,
    so whatever was written before a failing call stays written. *)

From Stdlib Require Import ZArith Lia Bool.
From stdpp Require Import base list gmap.

(** ** Machine integers *)

(** Sizes, strides and offsets are [int64_t] or [ptrdiff_t].  Every sum,
    difference and product the code computes on them is reduced to the
    two's complement range of 64 bits, which is what the hardware yields
    where C++ leaves signed overflow undefined. *)
Definition wrap64 (x : Z) : Z := ((x + 2 ^ 63) mod 2 ^ 64 - 2 ^ 63)%Z.

Definition in_int64 (x : Z) : Prop := (- 2 ^ 63 <= x < 2 ^ 63)%Z.

(** ** Data *)

(** The element type a storage is tagged with; it is only passed along. *)
Inductive ScalarType : Type :=
  | Byte | Char | Short | Int | Long | Half | Float | Double.

(** The storage object: [size] is its capacity in elements. *)
Module THCStorage.

Record t : Type := mk
  { size : Z;
    scalar_type : ScalarType;
    refcount : Z }.

End THCStorage.

(** A storage pointer is [None] (NULL) or the address of a storage. *)
Definition loc : Type := nat.
Definition ptr : Type := option loc.

(** The tensor struct.  [size] and [stride] are the two heap arrays, which
    may be longer than [nDimension]: [squeeze1d] lowers [nDimension]
    without reallocating.  [nDimension], a C [int] that is never negative
    on the inputs covered here, and all array indices are natural numbers.
    The reference count and the flag of the tensor take no part in the
    geometry and are left out. *)
Record THCTensor : Type := mkTensor
  { size : list Z;
    stride : list Z;
    nDimension : nat;
    storage : ptr;
    storageOffset : Z }.

Record state : Type := mkState
  { heap : gmap nat THCStorage.t;
    self : THCTensor }.

(** [a[d]]: the arrays hold at least [nDimension] entries whenever the
    code reads them (see [wf]); past the end the embedding reads 0. *)
Definition idx (a : list Z) (d : nat) : Z := default 0%Z (a !! d).

(** [THRealloc]: the old contents up to the new length, the rest
    uninitialised (every slot is written before it is read). *)
Definition THRealloc (a : list Z) (n : nat) : list Z :=
  take n a ++ replicate (n - length a) 0%Z.

(** The stored geometry: the first [nDimension] entries of each array. *)
Definition sizes (t : THCTensor) : list Z := take (nDimension t) (size t).
Definition strides (t : THCTensor) : list Z := take (nDimension t) (stride t).

Definition wf (t : THCTensor) : Prop :=
  nDimension t <= length (size t) /\ nDimension t <= length (stride t).

Definition set_size (t : THCTensor) (a : list Z) : THCTensor :=
  mkTensor a (stride t) (nDimension t) (storage t) (storageOffset t).
Definition set_stride (t : THCTensor) (a : list Z) : THCTensor :=
  mkTensor (size t) a (nDimension t) (storage t) (storageOffset t).
Definition set_nDimension (t : THCTensor) (n : nat) : THCTensor :=
  mkTensor (size t) (stride t) n (storage t) (storageOffset t).
Definition set_storage (t : THCTensor) (p : ptr) : THCTensor :=
  mkTensor (size t) (stride t) (nDimension t) p (storageOffset t).
Definition set_storageOffset (t : THCTensor) (o : Z) : THCTensor :=
  mkTensor (size t) (stride t) (nDimension t) (storage t) o.

(** ** The monad *)

Inductive error : Type :=
  | ArgError (arg : nat)      (* THArgCheck failed on argument [arg] *)
  | FatalError                (* THError *)
  | AllocError                (* the allocation backend gave up *)
  | NullPointer               (* a field of a NULL storage was read *)
  | DanglingPointer.          (* a field of a freed storage was read *)

Inductive result (A : Type) : Type :=
  | Ok (a : A) (s : state)
  | Err (e : error) (s : state).
Arguments Ok {A} a s.
Arguments Err {A} e s.

Definition M (A : Type) : Type := state -> result A.

Definition ret {A} (a : A) : M A := fun s => Ok a s.
Definition raise {A} (e : error) : M A := fun s => Err e s.
Definition bind {A B} (m : M A) (k : A -> M B) : M B :=
  fun s => match m s with
           | Ok a s' => k a s'
           | Err e s' => Err e s'
           end.

Declare Scope thc_scope.
Delimit Scope thc_scope with thc.
Notation "x <- m ;; k" := (bind m (fun x => k))
  (at level 100, m at next level, right associativity) : thc_scope.
Notation "m ;; k" := (bind m (fun _ => k))
  (at level 100, right associativity) : thc_scope.
Open Scope thc_scope.

Definition get_self : M THCTensor := fun s => Ok (self s) s.
Definition put_self (t : THCTensor) : M unit := fun s => Ok tt (mkState (heap s) t).
Definition modify_self (f : THCTensor -> THCTensor) : M unit :=
  fun s => Ok tt (mkState (heap s) (f (self s))).

(** [p->...]: reading through a storage pointer. *)
Definition deref (p : ptr) : M THCStorage.t :=
  fun s => match p with
           | None => Err NullPointer s
           | Some l => match heap s !! l with
                       | Some st => Ok st s
                       | None => Err DanglingPointer s
                       end
           end.

(** The state an outcome leaves behind, and whether it is a normal return. *)
Definition final {A} (r : result A) : state :=
  match r with Ok _ s => s | Err _ s => s end.
Definition returns {A} (r : result A) : bool :=
  match r with Ok _ _ => true | Err _ _ => false end.

(** ** Storage collaborators *)

Section Engine.

(** Whether the allocation backend can obtain a buffer of that many
    elements. *)
Variable alloc_ok : Z -> bool.

(** Modelled from the spec: [THCStorage_new] is not part of the sources at
    hand; a storage is created empty (capacity 0) with the given scalar
    type and one reference. *)
Definition THCStorage_new (ty : ScalarType) : M loc :=
  fun s => let l := fresh (dom (heap s)) in
           Ok l (mkState (<[l := THCStorage.mk 0 ty 1]> (heap s)) (self s)).

(** Modelled from the spec: [THCStorage_retain] is not part of the sources
    at hand; it increments the reference count. *)
Definition THCStorage_retain (l : loc) : M unit :=
  st <- deref (Some l);;
  fun s => Ok tt (mkState (<[l := THCStorage.mk (THCStorage.size st)
                                       (THCStorage.scalar_type st)
                                       (THCStorage.refcount st + 1)]> (heap s))
                          (self s)).

(** Modelled from the spec: [THCStorage_free] is not part of the sources at
    hand; it decrements the reference count and frees the storage when the
    count reaches zero. *)
Definition THCStorage_free (l : loc) : M unit :=
  st <- deref (Some l);;
  fun s => if (THCStorage.refcount st - 1 =? 0)%Z
           then Ok tt (mkState (delete l (heap s)) (self s))
           else Ok tt (mkState (<[l := THCStorage.mk (THCStorage.size st)
                                            (THCStorage.scalar_type st)
                                            (THCStorage.refcount st - 1)]> (heap s))
                               (self s)).

(** Modelled from the spec: [THCStorage_resize] is not part of the sources
    at hand; a grow request reallocates to the requested capacity, never
    shrinks, and fails with an allocation error, leaving the storage as it
    was, when the memory cannot be obtained. *)
Definition THCStorage_resize (l : loc) (n : Z) : M unit :=
  st <- deref (Some l);;
  if (n <=? THCStorage.size st)%Z then ret tt
  else if alloc_ok n
  then fun s => Ok tt (mkState (<[l := THCStorage.mk n (THCStorage.scalar_type st)
                                            (THCStorage.refcount st)]> (heap s))
                               (self s))
  else raise AllocError.

(** ** THCTensor_resizeNd *)

(** The first loop, from [d] with [fuel = nDimension - d] iterations left:
    counts the leading positive sizes and compares them with the stored
    geometry; a non-positive size breaks out. *)
Fixpoint resizeNd_scan (t : THCTensor) (sz : list Z) (sd : option (list Z))
    (fuel d nDimension_ : nat) (hascorrectsize : bool) : nat * bool :=
  match fuel with
  | O => (nDimension_, hascorrectsize)
  | S fuel' =>
    if (0 <? idx sz d)%Z then
      let h1 :=
        if (d <? nDimension t) && negb (idx sz d =? idx (size t) d)%Z
        then false else hascorrectsize in
      let h2 :=
        match sd with
        | Some st =>
          if (d <? nDimension t) && (0 <=? idx st d)%Z
             && negb (idx st d =? idx (stride t) d)%Z
          then false else h1
        | None => h1
        end in
      resizeNd_scan t sz sd fuel' (S d) (S nDimension_) h2
    else (nDimension_, hascorrectsize)
  end.

(** The second loop, [for (d = k-1; d >= 0; d--)]. *)
Fixpoint resizeNd_fill (sz : list Z) (sd : option (list Z)) (k : nat)
    (t : THCTensor) (totalSize : Z) : THCTensor * Z :=
  match k with
  | O => (t, totalSize)
  | S d =>
    let t1 := set_size t (<[d := idx sz d]> (size t)) in
    let explicit :=
      match sd with
      | Some st => if (0 <=? idx st d)%Z then Some (idx st d) else None
      | None => None
      end in
    let v :=
      match explicit with
      | Some v => v
      | None =>
        if d =? nDimension t1 - 1 then 1%Z
        else wrap64 (idx (size t1) (d + 1) * idx (stride t1) (d + 1))
      end in
    let t2 := set_stride t1 (<[d := v]> (stride t1)) in
    resizeNd_fill sz sd d t2
      (wrap64 (totalSize + wrap64 (wrap64 (idx (size t2) d - 1) * idx (stride t2) d)))
  end.

(** [sz] and [sd] are the arrays behind the pointers [size] and [stride],
    [sd = None] standing for a NULL [stride]; the code reads their first
    [nDimension_arg] entries at most.  The new geometry is in the state
    ([put_self]) before any storage is looked at. *)
Definition THCTensor_resizeNd (nDimension_arg : nat) (sz : list Z)
    (sd : option (list Z)) : M unit :=
  t <- get_self;;
  let '(nDim, hascorrectsize) := resizeNd_scan t sz sd nDimension_arg 0 0 true in
  let hascorrectsize := if negb (nDim =? nDimension t) then false else hascorrectsize in
  if hascorrectsize then ret tt
  else if 0 <? nDim then
    (if negb (nDim =? nDimension t)
     then put_self (set_nDimension
                      (set_stride (set_size t (THRealloc (size t) nDim))
                                  (THRealloc (stride t) nDim)) nDim)
     else ret tt);;
    t <- get_self;;
    let '(t', totalSize) := resizeNd_fill sz sd (nDimension t) t 1 in
    put_self t';;
    if (0 <? wrap64 (totalSize + storageOffset t'))%Z then
      (match storage t' with
       | None =>
         st <- deref (storage t');;
         l <- THCStorage_new (THCStorage.scalar_type st);;
         modify_self (fun t => set_storage t (Some l))
       | Some _ => ret tt
       end);;
      t <- get_self;;
      st <- deref (storage t);;
      if (THCStorage.size st <? wrap64 (totalSize + storageOffset t))%Z
      then match storage t with
           | Some l => THCStorage_resize l (wrap64 (totalSize + storageOffset t))
           | None => raise NullPointer
           end
      else ret tt
    else ret tt
  else modify_self (fun t => set_nDimension t 0).

(** ** THCTensor_resizeAs *)

Fixpoint resizeAs_same (t src : THCTensor) (fuel d : nat) : bool :=
  match fuel with
  | O => true
  | S fuel' =>
    if negb (idx (size t) d =? idx (size src) d)%Z then false
    else resizeAs_same t src fuel' (S d)
  end.

Definition THCTensor_resizeAs (src : THCTensor) : M unit :=
  t <- get_self;;
  let isSame :=
    if nDimension t =? nDimension src
    then resizeAs_same t src (nDimension t) 0 else false in
  if negb isSame then THCTensor_resizeNd (nDimension src) (size src) None
  else ret tt.

(** ** THCTensor_setStorageNd and THCTensor_set *)

Definition ptr_eqb (p q : ptr) : bool :=
  match p, q with
  | None, None => true
  | Some a, Some b => a =? b
  | _, _ => false
  end.

Definition THCTensor_setStorageNd (storage_arg : ptr) (storageOffset_arg : Z)
    (nDimension_arg : nat) (sz : list Z) (sd : option (list Z)) : M unit :=
  t <- get_self;;
  (if negb (ptr_eqb (storage t) storage_arg) then
     (match storage t with
      | Some l => THCStorage_free l
      | None => ret tt
      end);;
     match storage_arg with
     | Some l =>
       modify_self (fun t => set_storage t (Some l));;
       THCStorage_retain l
     | None =>
       t <- get_self;;
       st <- deref (storage t);;
       l <- THCStorage_new (THCStorage.scalar_type st);;
       modify_self (fun t => set_storage t (Some l))
     end
   else ret tt);;
  (if (storageOffset_arg <? 0)%Z then raise FatalError else ret tt);;
  modify_self (fun t => set_storageOffset t storageOffset_arg);;
  THCTensor_resizeNd nDimension_arg sz sd.

(** [src] is [Some s] when it points to a tensor other than [self], whose
    fields are then [s], and [None] when it is [self] itself. *)
Definition THCTensor_set (src : option THCTensor) : M unit :=
  match src with
  | Some s =>
    THCTensor_setStorageNd (storage s) (storageOffset s) (nDimension s)
                           (size s) (Some (stride s))
  | None => ret tt
  end.

(** ** THCTensor_squeeze1d and THCTensor_unsqueeze1d *)

(** What [src->] reads: the other tensor, or [self] as it is now (also
    when the caller passed NULL, which the code replaces by [self]).
    [dimension] is a natural number: a negative [int] would pass the check
    of [squeeze1d] and read in front of the array, which is not covered. *)
Definition src_of (src : option THCTensor) (t : THCTensor) : THCTensor :=
  match src with Some s => s | None => t end.

(** [for (d = dimension; d < nDimension-1; d++)] with [fuel] iterations left. *)
Fixpoint squeeze_shift (fuel d : nat) (t : THCTensor) : THCTensor :=
  match fuel with
  | O => t
  | S fuel' =>
    let t1 := set_size t (<[d := idx (size t) (d + 1)]> (size t)) in
    let t2 := set_stride t1 (<[d := idx (stride t1) (d + 1)]> (stride t1)) in
    squeeze_shift fuel' (S d) t2
  end.

(** [self->nDimension--] meets a positive value whenever the source has
    positive sizes, since [self] then has the dimensionality of the source. *)
Definition THCTensor_squeeze1d (src : option THCTensor) (dimension : nat) : M unit :=
  t <- get_self;;
  if negb (dimension <? nDimension (src_of src t)) then raise (ArgError 3)
  else
    THCTensor_set src;;
    t <- get_self;;
    if (idx (size (src_of src t)) dimension =? 1)%Z && (1 <? nDimension (src_of src t))
    then
      let t' := squeeze_shift (nDimension t - 1 - dimension) dimension t in
      put_self (set_nDimension t' (nDimension t' - 1))
    else ret tt.

(** [for (d = nDimension-1; d > dimension; d--)]: [d] runs down from
    [dimension + fuel]. *)
Fixpoint unsqueeze_shift (fuel dimension : nat) (t : THCTensor) : THCTensor :=
  match fuel with
  | O => t
  | S fuel' =>
    let d := dimension + fuel in
    let t1 := set_size t (<[d := idx (size t) (d - 1)]> (size t)) in
    let t2 := set_stride t1 (<[d := idx (stride t1) (d - 1)]> (stride t1)) in
    unsqueeze_shift fuel' dimension t2
  end.

Definition THCTensor_unsqueeze1d (src : option THCTensor) (dimension : nat) : M unit :=
  t <- get_self;;
  if negb (dimension <=? nDimension (src_of src t)) then raise (ArgError 3)
  else if negb (0 <? nDimension (src_of src t)) then raise (ArgError 3)
  else
    THCTensor_set src;;
    t <- get_self;;
    let t1 := set_nDimension
                (set_stride (set_size t (THRealloc (size t) (nDimension t + 1)))
                            (THRealloc (stride t) (nDimension t + 1)))
                (nDimension t + 1) in
    let t2 := unsqueeze_shift (nDimension t1 - 1 - dimension) dimension t1 in
    let v :=
      if dimension + 1 <? nDimension t2
      then wrap64 (idx (size t2) (dimension + 1) * idx (stride t2) (dimension + 1))
      else 1%Z in
    let t3 := set_stride t2 (<[dimension := v]> (stride t2)) in
    put_self (set_size t3 (<[dimension := 1%Z]> (size t3))).

End Engine.

(** ** Queries *)

(** [for (d = k-1; d >= 0; d--)] of [THCTensor_isContiguous]. *)
Fixpoint isContiguous_loop (t : THCTensor) (k : nat) (z : Z) : bool :=
  match k with
  | O => true
  | S d =>
    if negb (idx (size t) d =? 1)%Z then
      if (idx (stride t) d =? z)%Z
      then isContiguous_loop t d (wrap64 (z * idx (size t) d))
      else false
    else isContiguous_loop t d z
  end.

Definition THCTensor_isContiguous (t : THCTensor) : bool :=
  isContiguous_loop t (nDimension t) 1.

(** [for (d = 0; d < nDimension; d++) nElement *= size[d]]. *)
Fixpoint nElement_loop (t : THCTensor) (fuel d : nat) (nElement : Z) : Z :=
  match fuel with
  | O => nElement
  | S fuel' => nElement_loop t fuel' (S d) (wrap64 (nElement * idx (size t) d))
  end.

Definition THCTensor_nElement (t : THCTensor) : Z :=
  if nDimension t =? 0 then 0%Z
  else nElement_loop t (nDimension t) 0 1.

(** ** Specification-side notions *)

(** The count of leading strictly positive entries. *)
Fixpoint leading_positive (l : list Z) : nat :=
  match l with
  | [] => 0
  | x :: l' => if (0 <? x)%Z then S (leading_positive l') else 0
  end.

Definition Zprod (l : list Z) : Z := foldr Z.mul 1%Z l.

(** The stride [resizeNd] stores at [d] when the caller supplies none, or
    a negative one: 1 for the last dimension, otherwise the product of the
    next dimension's size and stride. *)
Definition default_stride (t : THCTensor) (d : nat) : Z :=
  if d =? nDimension t - 1 then 1%Z
  else wrap64 (idx (size t) (d + 1) * idx (stride t) (d + 1)).

Definition explicit_stride (sd : option (list Z)) (d : nat) : option Z :=
  match sd with
  | Some st => if (0 <=? idx st d)%Z then Some (idx st d) else None
  | None => None
  end.

(** What [THCTensor_resizeNd] does to the tensor record, storage aside. *)
Definition resizeNd_geometry (n : nat) (sz : list Z) (sd : option (list Z))
    (t : THCTensor) : THCTensor :=
  let '(nDim, ok) := resizeNd_scan t sz sd n 0 0 true in
  if (if negb (nDim =? nDimension t) then false else ok) then t
  else if 0 <? nDim then
    fst (resizeNd_fill sz sd nDim
           (if negb (nDim =? nDimension t)
            then set_nDimension
                   (set_stride (set_size t (THRealloc (size t) nDim))
                               (THRealloc (stride t) nDim)) nDim
            else t) 1)
  else set_nDimension t 0.

(** The invariant of the public interface: well-formed arrays holding only
    positive sizes. *)
Definition positive_sizes (t : THCTensor) : Prop :=
  wf t /\ Forall (fun x => 0 < x)%Z (sizes t).

(** ** Proof-side views of the operations *)

(** Dimension [j] of the request agrees with what the tensor stores. *)
Definition agrees (t : THCTensor) (sz : list Z) (sd : option (list Z)) (j : nat) : Prop :=
  idx sz j = idx (size t) j /\
  match explicit_stride sd j with
  | Some v => v = idx (stride t) j
  | None => True
  end.

(** The dimensionality the scan arrives at. *)
Definition new_dimension (n : nat) (sz : list Z) : nat := leading_positive (take n sz).

Definition stored_stride (sd : option (list Z)) (t : THCTensor) (j : nat) : Z :=
  match explicit_stride sd j with
  | Some v => v
  | None => default_stride t j
  end.

Definition is_noop (n : nat) (sz : list Z) (sd : option (list Z)) (t : THCTensor) : bool :=
  let '(nDim, ok) := resizeNd_scan t sz sd n 0 0 true in
  if negb (nDim =? nDimension t) then false else ok.

(** What [squeeze1d] and [unsqueeze1d] do to [self] once [THCTensor_set]
    has returned. *)
Definition squeeze_tail (dimension : nat) (t : THCTensor) : THCTensor :=
  let t' := squeeze_shift (nDimension t - 1 - dimension) dimension t in
  set_nDimension t' (nDimension t' - 1).

Definition unsqueeze_tail (dimension : nat) (t : THCTensor) : THCTensor :=
  let t1 := set_nDimension
              (set_stride (set_size t (THRealloc (size t) (nDimension t + 1)))
                          (THRealloc (stride t) (nDimension t + 1)))
              (nDimension t + 1) in
  let t2 := unsqueeze_shift (nDimension t1 - 1 - dimension) dimension t1 in
  let v :=
    if dimension + 1 <? nDimension t2
    then wrap64 (idx (size t2) (dimension + 1) * idx (stride t2) (dimension + 1))
    else 1%Z in
  let t3 := set_stride t2 (<[dimension := v]> (stride t2)) in
  set_size t3 (<[dimension := 1%Z]> (size t3)).

(** The stride [unsqueeze1d] gives the axis it inserts at [dimension]. *)
Definition inserted_stride (t : THCTensor) (dimension : nat) : Z :=
  if dimension <? nDimension t
  then wrap64 (idx (size t) dimension * idx (stride t) dimension)
  else 1%Z.

(** The part of [setStorageNd] that precedes the call of [resizeNd]. *)
Definition rebind_phase (alloc_ok : Z -> bool) (storage_arg : ptr)
    (storageOffset_arg : Z) : M unit :=
  t <- get_self;;
  (if negb (ptr_eqb (storage t) storage_arg) then
     (match storage t with
      | Some l => THCStorage_free l
      | None => ret tt
      end);;
     match storage_arg with
     | Some l =>
       modify_self (fun t => set_storage t (Some l));;
       THCStorage_retain l
     | None =>
       t <- get_self;;
       st <- deref (storage t);;
       l <- THCStorage_new (THCStorage.scalar_type st);;
       modify_self (fun t => set_storage t (Some l))
     end
   else ret tt);;
  (if (storageOffset_arg <? 0)%Z then raise FatalError else ret tt);;
  modify_self (fun t => set_storageOffset t storageOffset_arg).

(** ** Concrete tensors *)

(** A tensor as it is created: no dimensions, no storage. *)
Definition fresh_view : THCTensor := mkTensor [] [] 0 None 0.

(** A heap with one storage, at address 0. *)
Definition one_storage (capacity refs : Z) : gmap nat THCStorage.t :=
  {[ 0 := THCStorage.mk capacity Float refs ]}.

(** A tensor without dimensions attached to the storage at [l]. *)
Definition view_on (l : loc) : THCTensor := mkTensor [] [] 0 (Some l) 0.

Definition never (_ : Z) : bool := false.
Definition always (_ : Z) : bool := true.

(** A [2^32, 2^32] tensor whose strides are 0: one stored element seen
    2^64 times. *)
Definition expanded_view : THCTensor :=
  mkTensor [4294967296; 4294967296]%Z [0; 0]%Z 2 (Some 0) 0.

(** ** The remaining entry points of THCTensor.cpp *)

(** [THCTensor_size] and [THCTensor_stride]: [dim] is an [int] that is
    checked against both bounds. *)
Definition THCTensor_size (dim : Z) : M Z :=
  t <- get_self;;
  if negb ((0 <=? dim)%Z && (dim <? Z.of_nat (nDimension t))%Z)
  then raise (ArgError 2)
  else ret (idx (size t) (Z.to_nat dim)).

Definition THCTensor_stride (dim : Z) : M Z :=
  t <- get_self;;
  if negb ((0 <=? dim)%Z && (dim <? Z.of_nat (nDimension t))%Z)
  then raise (ArgError 2)
  else ret (idx (stride t) (Z.to_nat dim)).

(** Modelled from the spec: [THLongStorage] is not part of the sources at
    hand; a long storage is the list of its elements, and
    [THCTensor_newSizeOf] returns a copy of the first [nDimension] sizes. *)
Definition THCTensor_newSizeOf : M (list Z) :=
  t <- get_self;;
  ret ((fun d => idx (size t) d) <$> seq 0 (nDimension t)).

(** [THCTensor_resize]: [size] and [stride] are long storages or NULL. *)
Definition THCTensor_resize (alloc_ok : Z -> bool) (size_arg : option (list Z))
    (stride_arg : option (list Z)) : M unit :=
  match size_arg with
  | None => raise (ArgError 2)
  | Some sz =>
    (match stride_arg with
     | Some sd => if negb (length sd =? length sz) then raise (ArgError 3) else ret tt
     | None => ret tt
     end);;
    THCTensor_resizeNd alloc_ok (length sz) sz stride_arg
  end.

(** [THCTensor_allContiguous]: [None] stands for the failed assertion on
    an empty input. *)
Fixpoint allContiguous_loop (inputs : list THCTensor) : bool :=
  match inputs with
  | [] => true
  | t :: rest =>
    if negb (THCTensor_isContiguous t) then false else allContiguous_loop rest
  end.

Definition THCTensor_allContiguous (inputs : list THCTensor) : option bool :=
  match inputs with
  | [] => None
  | _ :: _ => Some (allContiguous_loop inputs)
  end.

Section Devices.

(** The device tag of the storage at an address: [THCStorage_getDevice] is
    not part of the sources at hand and is taken as it comes. *)
Variable THCStorage_getDevice : loc -> Z.

Definition THCTensor_getDevice (t : THCTensor) : Z :=
  match storage t with
  | None => (-1)%Z
  | Some l => THCStorage_getDevice l
  end.

(** [for (i = 1; i < numInputs; ++i)] over the inputs after the first. *)
Fixpoint allSameDevice_loop (device : Z) (rest : list THCTensor) : bool :=
  match rest with
  | [] => true
  | t :: rest' =>
    if negb (THCTensor_getDevice t =? device)%Z then false
    else allSameDevice_loop device rest'
  end.

Definition THCTensor_allSameDevice (inputs : list THCTensor) : option bool :=
  match inputs with
  | [] => None
  | t0 :: rest => Some (allSameDevice_loop (THCTensor_getDevice t0) rest)
  end.

End Devices.

(** ** The lifetime of a tensor *)

(** [std::atomic<int>] arithmetic, which wraps. *)
Definition wrap32 (x : Z) : Z := ((x + 2 ^ 31) mod 2 ^ 32 - 2 ^ 31)%Z.

(** The tensor struct with the two fields the geometry does not need. *)
Record THCTensorObj : Type := mkObj
  { tensor : THCTensor;
    tensor_refcount : Z;
    flag : Z }.

Section Lifetime.

(** The flag bit of a tensor that manages its own lifetime; its value is
    set in a header that is not part of the sources at hand. *)
Variable TH_TENSOR_REFCOUNTED : Z.

Definition refcounted (o : THCTensorObj) : bool :=
  negb (Z.land (flag o) TH_TENSOR_REFCOUNTED =? 0)%Z.

Definition THCTensor_retain (o : THCTensorObj) : THCTensorObj :=
  if refcounted o
  then mkObj (tensor o) (wrap32 (tensor_refcount o + 1)) (flag o)
  else o.

(** [THCTensor_free] on a pointer ([None] is NULL) and the heap of
    storages: the new heap and what the pointer refers to afterwards,
    [None] once the tensor has been deallocated, or the error raised while
    the storage was released. *)
Definition THCTensor_free (p : option THCTensorObj) (h : gmap nat THCStorage.t)
    : error + gmap nat THCStorage.t * option THCTensorObj :=
  match p with
  | None => inr (h, None)
  | Some o =>
    if refcounted o then
      if (wrap32 (tensor_refcount o - 1) =? 0)%Z then
        match storage (tensor o) with
        | Some l =>
          match THCStorage_free l (mkState h (tensor o)) with
          | Ok _ s' => inr (heap s', None)
          | Err e _ => inl e
          end
        | None => inr (h, None)
        end
      else inr (h, Some (mkObj (tensor o) (wrap32 (tensor_refcount o - 1)) (flag o)))
    else inr (h, Some o)
  end.

End Lifetime.

(** ** Further specification-side notions *)

(** Row-major strides of a size list: the products of the later sizes. *)
Fixpoint row_major (l : list Z) : list Z :=
  match l with
  | [] => []
  | _ :: l' => Zprod l' :: row_major l'
  end.

(** The sum of [(size[d] - 1) * stride[d]] over the first [k] dimensions,
    and the number of elements the storage must hold for the tensor. *)
Fixpoint span (t : THCTensor) (k : nat) : Z :=
  match k with
  | O => 0%Z
  | S d => ((idx (size t) d - 1) * idx (stride t) d + span t d)%Z
  end.

Definition extent (t : THCTensor) : Z :=
  (1 + span t (nDimension t) + storageOffset t)%Z.

(** One step of the contiguity walk, from the last dimension to the
    first: the expected stride, or [None] once a stride has failed. *)
Definition contiguous_step (p : Z * Z) (acc : option Z) : option Z :=
  match acc with
  | None => None
  | Some z =>
    if negb (p.1 =? 1)%Z then
      if (p.2 =? z)%Z then Some (wrap64 (z * p.1)) else None
    else Some z
  end.

Definition dims (t : THCTensor) : list (Z * Z) := zip (sizes t) (strides t).

(** What [resizeNd] does about the storage once the geometry [t'] is
    written: nothing when the extent is not positive, otherwise a grow
    request when the storage holds fewer elements than the extent. *)
Definition storage_request (alloc_ok : Z -> bool) (h : gmap nat THCStorage.t)
    (t' : THCTensor) : result unit :=
  let fp := wrap64 (extent t') in
  if (0 <? fp)%Z then
    match storage t' with
    | None => Err NullPointer (mkState h t')
    | Some l =>
      match h !! l with
      | None => Err DanglingPointer (mkState h t')
      | Some st =>
        if (THCStorage.size st <? fp)%Z then
          if alloc_ok fp
          then Ok tt (mkState (<[l := THCStorage.mk fp (THCStorage.scalar_type st)
                                          (THCStorage.refcount st)]> h) t')
          else Err AllocError (mkState h t')
        else Ok tt (mkState h t')
      end
    end
  else Ok tt (mkState h t').

(** A contiguous [4,3] tensor on the storage at address 0. *)
Definition matrix_view : THCTensor := mkTensor [4; 3]%Z [3; 1]%Z 2 (Some 0) 0.

(** The heap of storages after one reference to the storage at [l0] has
    been dropped, after one to [l] has been taken, and after a tensor
    holding [old] has been rebound to [l]. *)
Definition release (h : gmap nat THCStorage.t) (l0 : loc) : gmap nat THCStorage.t :=
  match h !! l0 with
  | Some st =>
    if (THCStorage.refcount st - 1 =? 0)%Z then delete l0 h
    else <[l0 := THCStorage.mk (THCStorage.size st) (THCStorage.scalar_type st)
                              (THCStorage.refcount st - 1)]> h
  | None => h
  end.

Definition acquire (h : gmap nat THCStorage.t) (l : loc) : gmap nat THCStorage.t :=
  match h !! l with
  | Some st =>
    <[l := THCStorage.mk (THCStorage.size st) (THCStorage.scalar_type st)
                         (THCStorage.refcount st + 1)]> h
  | None => h
  end.

Definition rebound_heap (h : gmap nat THCStorage.t) (old : ptr) (l : loc)
    : gmap nat THCStorage.t :=
  if ptr_eqb old (Some l) then h
  else acquire (match old with Some l0 => release h l0 | None => h end) l.

(** A heap with the storage of [matrix_view] and an empty second one. *)
Definition two_storages : gmap nat THCStorage.t :=
  <[1 := THCStorage.mk 0 Float 1]> (one_storage 12 1).

(** ** Tactics *)

Ltac run :=
  cbv [bind ret raise get_self put_self modify_self deref
       THCStorage_new THCStorage_retain THCStorage_free THCStorage_resize];
  simpl.

Ltac finish_bools :=
  repeat match goal with
         | H : Some _ = Some _ |- _ => injection H as H; subst
         | H : (_ <? _)%Z = true |- _ => apply Z.ltb_lt in H
         | H : (_ <? _)%Z = false |- _ => apply Z.ltb_ge in H
         | H : (_ <=? _)%Z = true |- _ => apply Z.leb_le in H
         | H : (_ <=? _)%Z = false |- _ => apply Z.leb_gt in H
         end;
  first [lia | congruence].

Ltac split_match :=
  match goal with
  | |- context [match ?x with _ => _ end] =>
    lazymatch x with
    | context [match _ with _ => _ end] => fail
    | _ => destruct x eqn:?
    end
  end.

(** ** Arithmetic *)

Lemma wrap64_range x : in_int64 (wrap64 x).
Proof.
  unfold in_int64, wrap64.
  pose proof (Z.mod_pos_bound (x + 2 ^ 63) (2 ^ 64)) as H. lia.
Qed.

Lemma wrap64_id x : in_int64 x -> wrap64 x = x.
Proof.
  unfold in_int64, wrap64. intros H.
  rewrite Z.mod_small by lia. lia.
Qed.

Lemma wrap64_idem x : wrap64 (wrap64 x) = wrap64 x.
Proof. apply wrap64_id, wrap64_range. Qed.

Lemma wrap64_eqm x : (wrap64 x mod 2 ^ 64 = x mod 2 ^ 64)%Z.
Proof.
  unfold wrap64.
  rewrite Zminus_mod, Zmod_mod, <- Zminus_mod.
  f_equal. lia.
Qed.

Lemma wrap64_congr x y : (x mod 2 ^ 64 = y mod 2 ^ 64)%Z -> wrap64 x = wrap64 y.
Proof.
  intros H. unfold wrap64.
  rewrite (Zplus_mod x), (Zplus_mod y), H. reflexivity.
Qed.

Lemma wrap64_mul_l x y : wrap64 (wrap64 x * y) = wrap64 (x * y).
Proof.
  apply wrap64_congr.
  rewrite (Zmult_mod (wrap64 x)), wrap64_eqm, <- Zmult_mod. reflexivity.
Qed.

(** ** Arrays *)

Lemma idx_lookup (a : list Z) d x : a !! d = Some x -> idx a d = x.
Proof. unfold idx. intros ->. reflexivity. Qed.

Lemma lookup_idx (a : list Z) d : d < length a -> a !! d = Some (idx a d).
Proof.
  intros H. unfold idx.
  destruct (lookup_lt_is_Some_2 a d H) as [x ->]. reflexivity.
Qed.

Lemma idx_ge (a : list Z) d : length a <= d -> idx a d = 0%Z.
Proof. intros H. unfold idx. rewrite lookup_ge_None_2 by lia. reflexivity. Qed.

Lemma idx_insert_eq (a : list Z) d x : d < length a -> idx (<[d := x]> a) d = x.
Proof. intros H. unfold idx. rewrite list_lookup_insert_eq by lia. reflexivity. Qed.

Lemma idx_take (a : list Z) n d : d < n -> idx (take n a) d = idx a d.
Proof. intros H. unfold idx. rewrite lookup_take_lt by lia. reflexivity. Qed.

Lemma length_THRealloc a n : length (THRealloc a n) = n.
Proof.
  unfold THRealloc. rewrite length_app, length_take, length_replicate. lia.
Qed.

Lemma take_idx_eq (a b : list Z) n :
  n <= length a -> n <= length b ->
  (forall d, d < n -> idx a d = idx b d) -> take n a = take n b.
Proof.
  intros Ha Hb H. apply list_eq. intros i.
  destruct (decide (i < n)) as [Hi|Hi].
  - rewrite !lookup_take_lt by lia.
    rewrite (lookup_idx a), (lookup_idx b) by lia. f_equal. apply H. lia.
  - rewrite !lookup_ge_None_2; [reflexivity | rewrite length_take; lia ..].
Qed.

(** ** The scan of the requested sizes *)

Lemma scan_fst t sz sd fuel : forall d nd ok,
  fst (resizeNd_scan t sz sd fuel d nd ok)
  = nd + leading_positive (take fuel (drop d sz)).
Proof.
  induction fuel as [|fuel IH]; intros d nd ok; simpl.
  - lia.
  - destruct (sz !! d) as [x|] eqn:Hd.
    + rewrite (drop_S _ _ _ Hd), (idx_lookup _ _ _ Hd). simpl.
      destruct (0 <? x)%Z; simpl; [rewrite IH; lia | lia].
    + rewrite drop_ge by (apply lookup_ge_None_1; assumption).
      unfold idx. rewrite Hd. simpl. lia.
Qed.

Lemma scan_snd_true t sz sd fuel : forall d nd ok,
  snd (resizeNd_scan t sz sd fuel d nd ok) = true ->
  ok = true /\
  forall j, d <= j < d + (fst (resizeNd_scan t sz sd fuel d nd ok) - nd) ->
            j < nDimension t -> agrees t sz sd j.
Proof.
  induction fuel as [|fuel IH]; intros d nd ok; simpl.
  - intros ->. split; [reflexivity | intros j Hj; lia].
  - destruct (0 <? idx sz d)%Z eqn:Hpos; simpl.
    2: { intros ->. split; [reflexivity | intros j Hj; lia]. }
    intros H. apply IH in H as [Hok Hrest].
    pose proof (scan_fst t sz sd fuel (S d) (S nd)) as Hfst.
    assert (Hd : d < nDimension t -> ok = true /\ agrees t sz sd d).
    { intros Hlt. apply Nat.ltb_lt in Hlt. rewrite Hlt in Hok. simpl in Hok.
      unfold agrees, explicit_stride.
      destruct (idx sz d =? idx (size t) d)%Z eqn:E1; simpl in Hok.
      - apply Z.eqb_eq in E1. destruct sd as [st|]; [|tauto].
        destruct (0 <=? idx st d)%Z eqn:E2; simpl in Hok; [|tauto].
        destruct (idx st d =? idx (stride t) d)%Z eqn:E3; simpl in Hok;
          [apply Z.eqb_eq in E3; tauto | discriminate].
      - destruct sd as [st|]; [|discriminate].
        destruct (_ && _); discriminate. }
    assert (Hok' : ok = true).
    { destruct (d <? nDimension t) eqn:Hlt.
      - apply Nat.ltb_lt in Hlt. apply Hd in Hlt. tauto.
      - simpl in Hok. destruct sd; assumption. }
    split; [assumption|].
    intros j Hj Hjn. destruct (decide (j = d)) as [->|Hne].
    + apply Hd. assumption.
    + apply Hrest; [|assumption]. rewrite Hfst in *. lia.
Qed.

Lemma scan_snd_intro t sz sd fuel : forall d nd,
  (forall j, d <= j < d + fuel -> j < nDimension t -> agrees t sz sd j) ->
  snd (resizeNd_scan t sz sd fuel d nd true) = true.
Proof.
  induction fuel as [|fuel IH]; intros d nd H; simpl; [reflexivity|].
  destruct (0 <? idx sz d)%Z; [|reflexivity].
  assert (Hd : d < nDimension t -> agrees t sz sd d) by (intros; apply H; lia).
  destruct (d <? nDimension t) eqn:Hlt; simpl.
  - apply Nat.ltb_lt in Hlt. destruct (Hd Hlt) as [E1 E2].
    rewrite E1, Z.eqb_refl. simpl.
    unfold explicit_stride in E2. destruct sd as [st|].
    + destruct (0 <=? idx st d)%Z; simpl.
      * rewrite E2, Z.eqb_refl. simpl. apply IH. intros; apply H; lia.
      * apply IH. intros; apply H; lia.
    + apply IH. intros; apply H; lia.
  - destruct sd; apply IH; intros; apply H; lia.
Qed.

Lemma scan_new_dimension t sz sd n :
  fst (resizeNd_scan t sz sd n 0 0 true) = new_dimension n sz.
Proof. rewrite scan_fst. reflexivity. Qed.

Lemma leading_positive_le l : leading_positive l <= length l.
Proof.
  induction l as [|x l IH]; simpl; [lia|]. destruct (0 <? x)%Z; simpl; lia.
Qed.

Lemma leading_positive_idx l : forall j, j < leading_positive l -> (0 < idx l j)%Z.
Proof.
  induction l as [|x l IH]; simpl; intros j Hj; [lia|].
  destruct (0 <? x)%Z eqn:E; [|lia].
  destruct j as [|j]; [apply Z.ltb_lt in E; exact E|].
  apply IH. lia.
Qed.

Lemma leading_positive_all l :
  Forall (fun x => 0 < x)%Z l -> leading_positive l = length l.
Proof.
  induction 1 as [|x l Hx _ IH]; simpl; [reflexivity|].
  apply Z.ltb_lt in Hx. rewrite Hx, IH. reflexivity.
Qed.

Lemma new_dimension_le n sz : new_dimension n sz <= n /\ new_dimension n sz <= length sz.
Proof.
  unfold new_dimension. pose proof (leading_positive_le (take n sz)) as H.
  rewrite length_take in H. lia.
Qed.

Lemma new_dimension_pos n sz j : j < new_dimension n sz -> (0 < idx sz j)%Z.
Proof.
  intros Hj. pose proof (new_dimension_le n sz).
  rewrite <- (idx_take sz n) by lia. apply leading_positive_idx. exact Hj.
Qed.

Lemma take_new_dimension_positive n sz :
  Forall (fun x => 0 < x)%Z (take (new_dimension n sz) sz).
Proof.
  apply Forall_lookup_2. intros i x Hi.
  pose proof (lookup_lt_Some _ _ _ Hi) as Hlen. rewrite length_take in Hlen.
  rewrite lookup_take_lt in Hi by lia.
  rewrite <- (idx_lookup _ _ _ Hi). apply (new_dimension_pos n). lia.
Qed.

(** ** The loop that writes the new geometry *)

Lemma fill_spec sz sd : forall k t total,
  k <= length (size t) -> k <= length (stride t) ->
  let t' := fst (resizeNd_fill sz sd k t total) in
  length (size t') = length (size t) /\
  length (stride t') = length (stride t) /\
  nDimension t' = nDimension t /\
  storage t' = storage t /\
  storageOffset t' = storageOffset t /\
  (forall j, k <= j -> size t' !! j = size t !! j /\ stride t' !! j = stride t !! j) /\
  (forall j, j < k ->
     idx (size t') j = idx sz j /\ idx (stride t') j = stored_stride sd t' j).
Proof.
  induction k as [|d IH]; intros t total Hsz Hsd; simpl.
  - repeat split; intros; lia.
  - match goal with
    | |- context [resizeNd_fill sz sd d ?t2 ?tot] =>
      specialize (IH t2 tot); set (t' := fst (resizeNd_fill sz sd d t2 tot)) in *
    end.
    simpl in IH. rewrite !length_insert in IH.
    destruct IH as (L1 & L2 & Hn & Hst & Hoff & Hkeep & Hnew); [lia | lia |].
    repeat split; try assumption.
    + destruct (Hkeep j) as [E _]; [lia|].
      rewrite E. apply list_lookup_insert_ne. lia.
    + destruct (Hkeep j) as [_ E]; [lia|].
      rewrite E. apply list_lookup_insert_ne. lia.
    + destruct (decide (j = d)) as [->|Hne]; [|apply Hnew; lia].
      destruct (Hkeep d) as [E _]; [lia|].
      unfold idx at 1. rewrite E, list_lookup_insert_eq by lia. reflexivity.
    + destruct (decide (j = d)) as [->|Hne]; [|apply Hnew; lia].
      destruct (Hkeep d) as [_ E]; [lia|].
      unfold idx at 1. rewrite E, list_lookup_insert_eq by lia. simpl.
      destruct (Hkeep (d + 1)) as [E1 E2]; [lia|].
      rewrite list_lookup_insert_ne in E1, E2 by lia.
      assert (I1 : idx (size t') (d + 1) = idx (<[d := idx sz d]> (size t)) (d + 1))
        by (unfold idx; rewrite E1, list_lookup_insert_ne by lia; reflexivity).
      assert (I2 : idx (stride t') (d + 1) = idx (stride t) (d + 1))
        by (unfold idx; rewrite E2; reflexivity).
      unfold stored_stride, explicit_stride, default_stride.
      rewrite I1, I2, Hn.
      destruct sd as [st|]; [destruct (0 <=? idx st d)%Z|]; reflexivity.
Qed.

(** ** resizeNd on the tensor record *)

Lemma resizeNd_self alloc_ok n sz sd s :
  self (final (THCTensor_resizeNd alloc_ok n sz sd s))
  = resizeNd_geometry n sz sd (self s).
Proof.
  unfold THCTensor_resizeNd, resizeNd_geometry. run.
  destruct (resizeNd_scan (self s) sz sd n 0 0 true) as [nDim ok].
  destruct (if negb (nDim =? nDimension (self s)) then false else ok); [reflexivity|].
  destruct (0 <? nDim); [|reflexivity].
  destruct (nDim =? nDimension (self s)) eqn:E; simpl;
    [apply Nat.eqb_eq in E; subst nDim|];
    destruct (resizeNd_fill sz sd _ _ 1) as [t' total]; simpl;
    repeat (split_match; simpl; try reflexivity; try congruence).
Qed.

Lemma fill_fields sz sd : forall k t total,
  let t' := fst (resizeNd_fill sz sd k t total) in
  nDimension t' = nDimension t /\ storage t' = storage t /\
  storageOffset t' = storageOffset t.
Proof.
  induction k as [|d IH]; intros t total; simpl; [tauto|].
  match goal with
  | |- context [resizeNd_fill sz sd d ?t2 ?tot] => apply (IH t2 tot)
  end.
Qed.

Lemma geometry_noop n sz sd t :
  is_noop n sz sd t = true -> resizeNd_geometry n sz sd t = t.
Proof.
  unfold is_noop, resizeNd_geometry.
  destruct (resizeNd_scan t sz sd n 0 0 true) as [nDim ok].
  intros ->. reflexivity.
Qed.

Lemma noop_agrees n sz sd t :
  is_noop n sz sd t = true ->
  nDimension t = new_dimension n sz /\
  forall j, j < new_dimension n sz -> agrees t sz sd j.
Proof.
  unfold is_noop. intros H.
  pose proof (scan_new_dimension t sz sd n) as Hfst.
  pose proof (scan_snd_true t sz sd n 0 0 true) as Hsnd.
  destruct (resizeNd_scan t sz sd n 0 0 true) as [nDim ok]. simpl in *.
  destruct (nDim =? nDimension t) eqn:E; simpl in H; [|discriminate].
  apply Nat.eqb_eq in E. subst ok nDim.
  destruct Hsnd as [_ Hsnd]; [reflexivity|].
  split; [lia|]. intros j Hj. apply Hsnd; lia.
Qed.

Lemma agrees_noop n sz sd t :
  nDimension t = new_dimension n sz ->
  (forall j, j < new_dimension n sz -> agrees t sz sd j) ->
  is_noop n sz sd t = true.
Proof.
  intros Hn H. unfold is_noop.
  pose proof (scan_new_dimension t sz sd n) as Hfst.
  pose proof (scan_snd_intro t sz sd n 0 0) as Hsnd.
  destruct (resizeNd_scan t sz sd n 0 0 true) as [nDim ok]. simpl in *.
  subst nDim. rewrite Hn, Nat.eqb_refl. simpl.
  apply Hsnd. intros j _ Hj. apply H. lia.
Qed.

Lemma geometry_nDimension n sz sd t :
  nDimension (resizeNd_geometry n sz sd t) = new_dimension n sz.
Proof.
  destruct (is_noop n sz sd t) eqn:Hnoop.
  - rewrite geometry_noop by assumption. apply noop_agrees in Hnoop. tauto.
  - unfold resizeNd_geometry, is_noop in *.
    pose proof (scan_new_dimension t sz sd n) as Hfst.
    destruct (resizeNd_scan t sz sd n 0 0 true) as [nDim ok]. simpl in *.
    rewrite Hnoop. subst nDim.
    destruct (0 <? new_dimension n sz) eqn:Hpos.
    + match goal with
      | |- context [resizeNd_fill sz sd ?k ?t0 ?tot] =>
        destruct (fill_fields sz sd k t0 tot) as (-> & _)
      end.
      destruct (new_dimension n sz =? nDimension t) eqn:E; simpl;
        [apply Nat.eqb_eq in E; lia | reflexivity].
    + apply Nat.ltb_ge in Hpos. simpl. lia.
Qed.

Lemma geometry_fields n sz sd t :
  storage (resizeNd_geometry n sz sd t) = storage t /\
  storageOffset (resizeNd_geometry n sz sd t) = storageOffset t.
Proof.
  unfold resizeNd_geometry.
  destruct (resizeNd_scan t sz sd n 0 0 true) as [nDim ok].
  destruct (if negb (nDim =? nDimension t) then false else ok); [tauto|].
  destruct (0 <? nDim); [|simpl; tauto].
  match goal with
  | |- context [resizeNd_fill sz sd ?k ?t0 ?tot] =>
    destruct (fill_fields sz sd k t0 tot) as (_ & -> & ->)
  end.
  destruct (negb (nDim =? nDimension t)); simpl; tauto.
Qed.

(** After a call that was not a no-op the arrays hold the request. *)
Lemma geometry_written n sz sd t :
  wf t -> is_noop n sz sd t = false ->
  let t' := resizeNd_geometry n sz sd t in
  wf t' /\
  forall j, j < new_dimension n sz ->
    idx (size t') j = idx sz j /\ idx (stride t') j = stored_stride sd t' j.
Proof.
  intros [W1 W2] Hnoop. unfold resizeNd_geometry, is_noop in *.
  pose proof (scan_new_dimension t sz sd n) as Hfst.
  destruct (resizeNd_scan t sz sd n 0 0 true) as [nDim ok]. simpl in *.
  rewrite Hnoop. subst nDim.
  destruct (0 <? new_dimension n sz) eqn:Hpos.
  2: { apply Nat.ltb_ge in Hpos. simpl. split; [split; simpl; lia | intros; lia]. }
  match goal with
  | |- context [resizeNd_fill sz sd ?k ?t0 ?tot] =>
    pose proof (fill_spec sz sd k t0 tot) as Hfill;
    set (t' := fst (resizeNd_fill sz sd k t0 tot)) in *
  end.
  simpl in Hfill.
  destruct (new_dimension n sz =? nDimension t) eqn:E; simpl in *.
  - apply Nat.eqb_eq in E.
    destruct Hfill as (L1 & L2 & Hn & _ & _ & _ & Hnew); [lia | lia |].
    split; [split; lia | exact Hnew].
  - rewrite !length_THRealloc in Hfill.
    destruct Hfill as (L1 & L2 & Hn & _ & _ & _ & Hnew); [lia | lia |].
    split; [split; lia | exact Hnew].
Qed.

(** Whatever path was taken, the tensor ends up agreeing with the request. *)
Lemma geometry_agrees n sz sd t :
  wf t ->
  let t' := resizeNd_geometry n sz sd t in
  wf t' /\ forall j, j < new_dimension n sz -> agrees t' sz sd j.
Proof.
  intros W. simpl. destruct (is_noop n sz sd t) eqn:Hnoop.
  - rewrite geometry_noop by assumption. split; [assumption|].
    apply noop_agrees. assumption.
  - destruct (geometry_written n sz sd t W Hnoop) as [W' H].
    split; [assumption|]. intros j Hj. destruct (H j Hj) as [E1 E2].
    split; [congruence|]. unfold stored_stride in E2.
    destruct (explicit_stride sd j); [congruence | exact I].
Qed.

Lemma geometry_sizes n sz sd t :
  wf t -> sizes (resizeNd_geometry n sz sd t) = take (new_dimension n sz) sz.
Proof.
  intros W. destruct (geometry_agrees n sz sd t W) as [[W1 _] H].
  pose proof (geometry_nDimension n sz sd t) as Hn.
  unfold sizes. rewrite Hn in *. pose proof (new_dimension_le n sz).
  apply take_idx_eq; [lia | lia |].
  intros d Hd. symmetry. apply H. assumption.
Qed.

Lemma geometry_positive n sz sd t :
  wf t -> positive_sizes (resizeNd_geometry n sz sd t).
Proof.
  intros W. split; [apply geometry_agrees; assumption|].
  rewrite geometry_sizes by assumption. apply take_new_dimension_positive.
Qed.

(** ** The no-op path *)

Lemma resizeNd_noop_run alloc_ok n sz sd s :
  is_noop n sz sd (self s) = true ->
  THCTensor_resizeNd alloc_ok n sz sd s = Ok tt s.
Proof.
  unfold is_noop, THCTensor_resizeNd. run.
  destruct (resizeNd_scan (self s) sz sd n 0 0 true) as [nDim ok].
  intros ->. reflexivity.
Qed.

Lemma resizeNd_error_not_noop alloc_ok n sz sd s e s' :
  THCTensor_resizeNd alloc_ok n sz sd s = Err e s' ->
  is_noop n sz sd (self s) = false.
Proof.
  intros H. destruct (is_noop n sz sd (self s)) eqn:E; [|reflexivity].
  rewrite resizeNd_noop_run in H by assumption. discriminate.
Qed.

(** An allocation error leaves the heap of storages as it was. *)
Lemma resizeNd_alloc_error_heap alloc_ok n sz sd s s' :
  THCTensor_resizeNd alloc_ok n sz sd s = Err AllocError s' ->
  heap s' = heap s.
Proof.
  unfold THCTensor_resizeNd. run.
  destruct (resizeNd_scan (self s) sz sd n 0 0 true) as [nDim ok].
  destruct (if negb (nDim =? nDimension (self s)) then false else ok); [discriminate|].
  destruct (0 <? nDim); [|discriminate].
  destruct (nDim =? nDimension (self s)); simpl;
    destruct (resizeNd_fill sz sd _ _ 1) as [t' total]; simpl;
    repeat (split_match; simpl; try discriminate);
    intros [= <-]; reflexivity.
Qed.


(** ** Contiguity of the default strides *)

Lemma default_stride_range t d : wrap64 (default_stride t d) = default_stride t d.
Proof.
  unfold default_stride. destruct (d =? nDimension t - 1).
  - reflexivity.
  - apply wrap64_idem.
Qed.

Lemma isContiguous_loop_default t :
  (forall j, j < nDimension t -> idx (stride t) j = default_stride t j) ->
  forall k z, k <= nDimension t ->
    (forall d, k = S d -> z = default_stride t d) ->
    isContiguous_loop t k z = true.
Proof.
  intros Hdef. induction k as [|d IH]; intros z Hk Hz; simpl; [reflexivity|].
  assert (Ez : z = default_stride t d) by (apply Hz; reflexivity).
  assert (Es : idx (stride t) d = z) by (rewrite Ez; apply Hdef; lia).
  assert (Hnext : forall d', d = S d' ->
            default_stride t d' = wrap64 (idx (size t) d * z)).
  { intros d' ->. unfold default_stride.
    replace (d' =? nDimension t - 1) with false
      by (symmetry; apply Nat.eqb_neq; lia).
    replace (d' + 1) with (S d') by lia. rewrite Es. reflexivity. }
  destruct (idx (size t) d =? 1)%Z eqn:E1; simpl.
  - apply Z.eqb_eq in E1. apply IH; [lia|].
    intros d' Hd'. rewrite (Hnext d' Hd'), E1, Z.mul_1_l, Ez.
    symmetry. apply default_stride_range.
  - rewrite Es, Z.eqb_refl. apply IH; [lia|].
    intros d' Hd'. rewrite (Hnext d' Hd'). f_equal. lia.
Qed.

Lemma isContiguous_default t :
  (forall j, j < nDimension t -> idx (stride t) j = default_stride t j) ->
  THCTensor_isContiguous t = true.
Proof.
  intros H. unfold THCTensor_isContiguous.
  apply isContiguous_loop_default; [assumption | lia |].
  intros d Hd. unfold default_stride.
  replace (d =? nDimension t - 1) with true; [reflexivity|].
  symmetry. apply Nat.eqb_eq. lia.
Qed.

Lemma noop_sizes n sz sd t :
  wf t -> is_noop n sz sd t = true -> sizes t = take (new_dimension n sz) sz.
Proof.
  intros W H. rewrite <- (geometry_noop n sz sd t H) at 1.
  apply geometry_sizes. assumption.
Qed.

(** ** C1: a failed grow *)

(** C1, as stated, fails: resizing an empty tensor to [4,3] when the
    backend cannot provide 12 elements raises the allocation error with
    the size array, the stride array and the dimensionality already
    overwritten. *)
Lemma resizeNd_failed_grow_commits_geometry :
  THCTensor_resizeNd never 2 [4; 3]%Z None (mkState (one_storage 0 1) (view_on 0))
  = Err AllocError (mkState (one_storage 0 1) (mkTensor [4; 3]%Z [3; 1]%Z 2 (Some 0) 0))
  /\ sizes (mkTensor [4; 3]%Z [3; 1]%Z 2 (Some 0) 0) <> sizes (view_on 0)
  /\ nDimension (mkTensor [4; 3]%Z [3; 1]%Z 2 (Some 0) 0) <> nDimension (view_on 0).
Proof.
  split; [vm_compute; reflexivity|]. split; vm_compute; discriminate.
Qed.

(** C1, amended: when a grow request fails inside [resizeNd] the
    allocation error reaches the caller, the heap of storages (so the
    capacity), the storage pointer and the offset are as before, while the
    dimensionality, the size array and the stride array already hold the
    requested geometry. *)
Theorem resizeNd_failed_grow alloc_ok n sz sd s s' :
  wf (self s) ->
  THCTensor_resizeNd alloc_ok n sz sd s = Err AllocError s' ->
  heap s' = heap s /\
  storage (self s') = storage (self s) /\
  storageOffset (self s') = storageOffset (self s) /\
  nDimension (self s') = new_dimension n sz /\
  sizes (self s') = take (new_dimension n sz) sz /\
  forall j, j < new_dimension n sz ->
    idx (stride (self s')) j = stored_stride sd (self s') j.
Proof.
  intros W H.
  pose proof (resizeNd_alloc_error_heap _ _ _ _ _ _ H) as Hheap.
  pose proof (resizeNd_error_not_noop _ _ _ _ _ _ _ H) as Hnoop.
  pose proof (resizeNd_self alloc_ok n sz sd s) as Hself.
  rewrite H in Hself. simpl in Hself. rewrite Hself.
  destruct (geometry_fields n sz sd (self s)) as [E1 E2].
  destruct (geometry_written n sz sd (self s) W Hnoop) as [_ Hw].
  repeat split; try assumption.
  - apply geometry_nDimension.
  - apply geometry_sizes. assumption.
  - intros j Hj. apply Hw. assumption.
Qed.

Lemma resizeNd_failed_grow_witness :
  heap (mkState (one_storage 0 1) (mkTensor [4; 3]%Z [3; 1]%Z 2 (Some 0) 0))
  = one_storage 0 1 /\
  sizes (mkTensor [4; 3]%Z [3; 1]%Z 2 (Some 0) 0) = [4; 3]%Z.
Proof.
  destruct (resizeNd_failed_grow never 2 [4; 3]%Z None
              (mkState (one_storage 0 1) (view_on 0))
              (mkState (one_storage 0 1) (mkTensor [4; 3]%Z [3; 1]%Z 2 (Some 0) 0)))
    as (H1 & _ & _ & _ & H2 & _).
  - split; simpl; lia.
  - vm_compute. reflexivity.
  - split; [exact H1 | exact H2].
Defined.

(** ** C2: creating a storage for a tensor that has none *)

(** C2 at its failing inputs.  Resizing a freshly created tensor to [1]
    reaches the storage-creation branch, which reads the scalar type
    through the NULL storage pointer; rebinding a tensor that holds the
    last reference to its storage onto no storage reads the scalar type of
    the storage it has just freed. *)
Theorem storage_creation_reads_absent_storage :
  THCTensor_resizeNd always 1 [1]%Z None (mkState ∅ fresh_view)
  = Err NullPointer (mkState ∅ (mkTensor [1]%Z [1]%Z 1 None 0))
  /\ THCTensor_setStorageNd always None 0 0 [] None
       (mkState (one_storage 0 1) (view_on 0))
     = Err DanglingPointer (mkState ∅ (view_on 0)).
Proof. split; vm_compute; reflexivity. Qed.

(** ** C3: the effective dimensionality *)

(** C3: after [resizeNd] the dimensionality is the number of leading
    strictly positive requested sizes and the size array is that prefix of
    the request; a request of [5,0,2] gives dimensionality 1 and sizes [5]. *)
Theorem resizeNd_effective_dimension alloc_ok n sz sd s :
  wf (self s) ->
  let t' := self (final (THCTensor_resizeNd alloc_ok n sz sd s)) in
  nDimension t' = leading_positive (take n sz) /\
  sizes t' = take (leading_positive (take n sz)) sz /\
  (n = 3 -> sz = [5; 0; 2]%Z -> nDimension t' = 1 /\ sizes t' = [5]%Z).
Proof.
  intros W. simpl. rewrite resizeNd_self.
  pose proof (geometry_nDimension n sz sd (self s)) as Hn.
  pose proof (geometry_sizes n sz sd (self s) W) as Hs.
  unfold new_dimension in *. repeat split; try assumption.
  - subst. rewrite Hn. reflexivity.
  - subst. rewrite Hs. reflexivity.
Qed.

Lemma resizeNd_effective_dimension_witness :
  nDimension (self (final (THCTensor_resizeNd always 3 [5; 0; 2]%Z None
                             (mkState (one_storage 0 1) (view_on 0))))) = 1
  /\ sizes (self (final (THCTensor_resizeNd always 3 [5; 0; 2]%Z None
                           (mkState (one_storage 0 1) (view_on 0))))) = [5]%Z.
Proof.
  destruct (resizeNd_effective_dimension always 3 [5; 0; 2]%Z None
              (mkState (one_storage 0 1) (view_on 0))) as (_ & _ & H).
  - split; simpl; lia.
  - apply H; reflexivity.
Defined.

(** ** C4: contiguity after a resize without strides *)

(** C4, as stated, fails: a transposed [2,3] tensor asked to resize to
    [2,3] without strides is left as it is, and it is not contiguous. *)
Lemma resizeNd_noop_keeps_noncontiguous :
  THCTensor_resizeNd always 2 [2; 3]%Z None
    (mkState (one_storage 6 1) (mkTensor [2; 3]%Z [1; 2]%Z 2 (Some 0) 0))
  = Ok tt (mkState (one_storage 6 1) (mkTensor [2; 3]%Z [1; 2]%Z 2 (Some 0) 0))
  /\ THCTensor_isContiguous (mkTensor [2; 3]%Z [1; 2]%Z 2 (Some 0) 0) = false.
Proof. split; vm_compute; reflexivity. Qed.

(** C4, amended: when no stride is supplied and the stored sizes differ
    from the leading positive requested sizes, so that the call is not a
    no-op, the tensor [resizeNd] leaves is contiguous. *)
Theorem resizeNd_default_strides_contiguous alloc_ok n sz s :
  wf (self s) ->
  sizes (self s) <> take (leading_positive (take n sz)) sz ->
  THCTensor_isContiguous (self (final (THCTensor_resizeNd alloc_ok n sz None s))) = true.
Proof.
  intros W Hne. rewrite resizeNd_self.
  assert (Hnoop : is_noop n sz None (self s) = false).
  { destruct (is_noop n sz None (self s)) eqn:E; [|reflexivity].
    exfalso. apply Hne. apply (noop_sizes n sz None); assumption. }
  destruct (geometry_written n sz None (self s) W Hnoop) as [_ Hw].
  apply isContiguous_default. intros j Hj.
  rewrite geometry_nDimension in Hj. apply Hw. assumption.
Qed.

Lemma resizeNd_default_strides_contiguous_witness :
  THCTensor_isContiguous
    (self (final (THCTensor_resizeNd always 2 [4; 3]%Z None
                    (mkState (one_storage 0 1) (view_on 0))))) = true.
Proof.
  apply resizeNd_default_strides_contiguous.
  - split; simpl; lia.
  - vm_compute. discriminate.
Defined.

(** ** C6: repeating a resize *)

(** C6: a second [resizeNd] with the same arguments returns at once and
    leaves the tensor and the heap of storages exactly as the first call
    left them. *)
Theorem resizeNd_twice alloc_ok n sz sd s :
  wf (self s) ->
  let s1 := final (THCTensor_resizeNd alloc_ok n sz sd s) in
  THCTensor_resizeNd alloc_ok n sz sd s1 = Ok tt s1.
Proof.
  intros W. simpl. apply resizeNd_noop_run. rewrite resizeNd_self.
  apply agrees_noop.
  - apply geometry_nDimension.
  - apply geometry_agrees. assumption.
Qed.

Lemma resizeNd_twice_witness :
  THCTensor_resizeNd always 2 [4; 3]%Z (Some [1; 4]%Z)
    (final (THCTensor_resizeNd always 2 [4; 3]%Z (Some [1; 4]%Z)
              (mkState (one_storage 0 1) (view_on 0))))
  = Ok tt (final (THCTensor_resizeNd always 2 [4; 3]%Z (Some [1; 4]%Z)
                    (mkState (one_storage 0 1) (view_on 0)))).
Proof.
  apply resizeNd_twice. split; simpl; lia.
Defined.

(** ** Squeezing and unsqueezing *)

Lemma squeeze1d_run alloc_ok src dimension s :
  THCTensor_squeeze1d alloc_ok src dimension s =
  if negb (dimension <? nDimension (src_of src (self s))) then Err (ArgError 3) s
  else match THCTensor_set alloc_ok src s with
       | Ok _ s2 =>
         if (idx (size (src_of src (self s2))) dimension =? 1)%Z
            && (1 <? nDimension (src_of src (self s2)))
         then Ok tt (mkState (heap s2) (squeeze_tail dimension (self s2)))
         else Ok tt s2
       | Err e s2 => Err e s2
       end.
Proof.
  unfold THCTensor_squeeze1d. run.
  destruct (negb _); [reflexivity|].
  destruct (THCTensor_set alloc_ok src s) as [[] s2|e s2]; [|reflexivity].
  destruct (_ && _); reflexivity.
Qed.

Lemma unsqueeze1d_run alloc_ok src dimension s :
  THCTensor_unsqueeze1d alloc_ok src dimension s =
  if negb (dimension <=? nDimension (src_of src (self s))) then Err (ArgError 3) s
  else if negb (0 <? nDimension (src_of src (self s))) then Err (ArgError 3) s
  else match THCTensor_set alloc_ok src s with
       | Ok _ s2 => Ok tt (mkState (heap s2) (unsqueeze_tail dimension (self s2)))
       | Err e s2 => Err e s2
       end.
Proof.
  unfold THCTensor_unsqueeze1d. run.
  destruct (negb _); [reflexivity|].
  destruct (negb _); [reflexivity|].
  destruct (THCTensor_set alloc_ok src s) as [[] s2|e s2]; reflexivity.
Qed.

Lemma squeeze_shift_spec : forall fuel d t,
  d + fuel < length (size t) -> d + fuel < length (stride t) ->
  let t' := squeeze_shift fuel d t in
  nDimension t' = nDimension t /\ storage t' = storage t /\
  storageOffset t' = storageOffset t /\
  length (size t') = length (size t) /\ length (stride t') = length (stride t) /\
  forall j,
    size t' !! j = size t !! (if bool_decide (d <= j < d + fuel) then S j else j) /\
    stride t' !! j = stride t !! (if bool_decide (d <= j < d + fuel) then S j else j).
Proof.
  induction fuel as [|fuel IH]; intros d t L1 L2; simpl.
  - repeat split; try reflexivity;
      rewrite bool_decide_eq_false_2 by lia; reflexivity.
  - match goal with
    | |- context [squeeze_shift fuel (S d) ?t2] => specialize (IH (S d) t2)
    end.
    simpl in IH. rewrite !length_insert in IH.
    destruct IH as (Hn & Hst & Hoff & E1 & E2 & Hj); [lia | lia |].
    repeat split; try assumption.
    + destruct (Hj j) as [-> _].
      replace (d + 1) with (S d) by lia.
      repeat case_bool_decide; try lia;
        first [ rewrite list_lookup_insert_ne by lia; reflexivity
              | assert (j = d) as -> by lia;
                rewrite list_lookup_insert_eq by lia;
                symmetry; apply lookup_idx; lia ].
    + destruct (Hj j) as [_ ->].
      replace (d + 1) with (S d) by lia.
      repeat case_bool_decide; try lia;
        first [ rewrite list_lookup_insert_ne by lia; reflexivity
              | assert (j = d) as -> by lia;
                rewrite list_lookup_insert_eq by lia;
                symmetry; apply lookup_idx; lia ].
Qed.

Lemma take_shift_delete (a a' : list Z) n d :
  d < n -> n <= length a ->
  (forall j, a' !! j = a !! (if bool_decide (d <= j < d + (n - 1 - d)) then S j else j)) ->
  take (n - 1) a' = delete d (take n a).
Proof.
  intros Hd Hn H. apply list_eq. intros j.
  destruct (decide (j < n - 1)) as [Hj|Hj].
  - rewrite lookup_take_lt, H by lia.
    destruct (decide (j < d)) as [Hlt|Hge].
    + rewrite bool_decide_eq_false_2, list_lookup_delete_lt, lookup_take_lt by lia.
      reflexivity.
    + rewrite bool_decide_eq_true_2, list_lookup_delete_ge, lookup_take_lt by lia.
      reflexivity.
  - rewrite lookup_take_ge by lia. symmetry. apply lookup_ge_None_2.
    rewrite length_delete, length_take; [lia|].
    apply lookup_lt_is_Some_2. rewrite length_take. lia.
Qed.

Lemma squeeze_tail_spec dimension t :
  wf t -> dimension < nDimension t ->
  let t' := squeeze_tail dimension t in
  wf t' /\ nDimension t' = nDimension t - 1 /\
  storage t' = storage t /\ storageOffset t' = storageOffset t /\
  sizes t' = delete dimension (sizes t) /\
  strides t' = delete dimension (strides t).
Proof.
  intros [W1 W2] Hd. unfold squeeze_tail.
  destruct (squeeze_shift_spec (nDimension t - 1 - dimension) dimension t)
    as (Hn & Hst & Hoff & E1 & E2 & Hj); [lia | lia |].
  simpl. unfold wf, sizes, strides. simpl. rewrite Hn, E1, E2.
  repeat split; try assumption; try lia.
  - apply take_shift_delete; [lia | lia |]. intros j. apply Hj.
  - apply take_shift_delete; [lia | lia |]. intros j. apply Hj.
Qed.

Lemma unsqueeze_shift_spec : forall fuel dimension t,
  dimension + fuel < length (size t) -> dimension + fuel < length (stride t) ->
  let t' := unsqueeze_shift fuel dimension t in
  nDimension t' = nDimension t /\ storage t' = storage t /\
  storageOffset t' = storageOffset t /\
  length (size t') = length (size t) /\ length (stride t') = length (stride t) /\
  forall j,
    size t' !! j
    = size t !! (if bool_decide (dimension < j <= dimension + fuel) then j - 1 else j) /\
    stride t' !! j
    = stride t !! (if bool_decide (dimension < j <= dimension + fuel) then j - 1 else j).
Proof.
  induction fuel as [|fuel IH]; intros dimension t L1 L2; simpl.
  - repeat split; try reflexivity;
      rewrite bool_decide_eq_false_2 by lia; reflexivity.
  - match goal with
    | |- context [unsqueeze_shift fuel dimension ?t2] => specialize (IH dimension t2)
    end.
    simpl in IH. rewrite !length_insert in IH.
    destruct IH as (Hn & Hst & Hoff & E1 & E2 & Hj); [lia | lia |].
    repeat split; try assumption.
    + destruct (Hj j) as [-> _].
      repeat case_bool_decide; try lia;
        first [ rewrite list_lookup_insert_ne by lia; reflexivity
              | assert (j = dimension + S fuel) as -> by lia;
                rewrite list_lookup_insert_eq by lia;
                symmetry; apply lookup_idx; lia ].
    + destruct (Hj j) as [_ ->].
      repeat case_bool_decide; try lia;
        first [ rewrite list_lookup_insert_ne by lia; reflexivity
              | assert (j = dimension + S fuel) as -> by lia;
                rewrite list_lookup_insert_eq by lia;
                symmetry; apply lookup_idx; lia ].
Qed.

Lemma lookup_THRealloc (a : list Z) n j :
  j < n -> j < length a -> THRealloc a n !! j = a !! j.
Proof.
  intros Hn Ha. unfold THRealloc.
  rewrite lookup_app_l by (rewrite length_take; lia).
  apply lookup_take_lt. assumption.
Qed.

Lemma take_shift_insert (a a2 : list Z) n dimension x :
  dimension <= n -> n <= length a -> length a2 = n + 1 ->
  (forall j, a2 !! j
             = THRealloc a (n + 1)
               !! (if bool_decide (dimension < j <= dimension + (n + 1 - 1 - dimension))
                   then j - 1 else j)) ->
  take (n + 1) (<[dimension := x]> a2)
  = take dimension (take n a) ++ x :: drop dimension (take n a).
Proof.
  intros Hd Hn Hlen H. apply list_eq. intros j.
  assert (Ltake : length (take dimension (take n a)) = dimension)
    by (rewrite !length_take; lia).
  destruct (decide (j < n + 1)) as [Hj|Hj].
  - rewrite lookup_take_lt by lia.
    destruct (decide (j = dimension)) as [->|Hne].
    + rewrite list_lookup_insert_eq by lia.
      rewrite lookup_app_r by lia. rewrite Ltake, Nat.sub_diag. reflexivity.
    + rewrite list_lookup_insert_ne, H by lia.
      case_bool_decide.
      * rewrite lookup_THRealloc by lia.
        rewrite lookup_app_r by lia. rewrite Ltake.
        destruct (j - dimension) as [|k] eqn:Ek; [lia|]. simpl.
        rewrite lookup_drop, lookup_take_lt by lia. f_equal. lia.
      * rewrite lookup_THRealloc by lia.
        rewrite lookup_app_l by lia.
        rewrite !lookup_take_lt by lia. reflexivity.
  - rewrite lookup_take_ge by lia. symmetry. apply lookup_ge_None_2.
    rewrite length_app. simpl. rewrite Ltake, length_drop, length_take. lia.
Qed.

Lemma unsqueeze_tail_spec dimension t :
  wf t -> dimension <= nDimension t ->
  let t' := unsqueeze_tail dimension t in
  wf t' /\ nDimension t' = nDimension t + 1 /\
  storage t' = storage t /\ storageOffset t' = storageOffset t /\
  sizes t' = take dimension (sizes t) ++ 1%Z :: drop dimension (sizes t) /\
  strides t' = take dimension (strides t)
               ++ inserted_stride t dimension :: drop dimension (strides t).
Proof.
  intros [W1 W2] Hd. unfold unsqueeze_tail.
  set (t1 := set_nDimension
               (set_stride (set_size t (THRealloc (size t) (nDimension t + 1)))
                           (THRealloc (stride t) (nDimension t + 1)))
               (nDimension t + 1)).
  assert (N1 : nDimension t1 = nDimension t + 1) by reflexivity.
  rewrite N1.
  destruct (unsqueeze_shift_spec (nDimension t + 1 - 1 - dimension) dimension t1)
    as (Hn & Hst & Hoff & E1 & E2 & Hj);
    [simpl; rewrite length_THRealloc; lia | simpl; rewrite length_THRealloc; lia |].
  set (t2 := unsqueeze_shift (nDimension t + 1 - 1 - dimension) dimension t1) in *.
  simpl in E1, E2. rewrite length_THRealloc in E1, E2.
  assert (Ev : (if dimension + 1 <? nDimension t2
                then wrap64 (idx (size t2) (dimension + 1) * idx (stride t2) (dimension + 1))
                else 1%Z) = inserted_stride t dimension).
  { unfold inserted_stride. rewrite Hn, N1.
    destruct (dimension <? nDimension t) eqn:B.
    - apply Nat.ltb_lt in B.
      replace (dimension + 1 <? nDimension t + 1) with true
        by (symmetry; apply Nat.ltb_lt; lia).
      destruct (Hj (dimension + 1)) as [S1 S2].
      rewrite bool_decide_eq_true_2 in S1, S2 by lia.
      replace (dimension + 1 - 1) with dimension in S1, S2 by lia.
      simpl in S1, S2. rewrite lookup_THRealloc in S1, S2 by lia.
      unfold idx. rewrite S1, S2. reflexivity.
    - apply Nat.ltb_ge in B.
      replace (dimension + 1 <? nDimension t + 1) with false
        by (symmetry; apply Nat.ltb_ge; lia).
      reflexivity. }
  rewrite Ev. simpl. unfold wf, sizes, strides. simpl.
  rewrite !length_insert, Hn, N1, E1, E2.
  repeat split; try assumption; try lia.
  - apply take_shift_insert; [lia | lia | lia |]. intros j. apply Hj.
  - apply take_shift_insert; [lia | lia | lia |]. intros j. apply Hj.
Qed.

Lemma reinsert_deleted (l : list Z) i y :
  i < length l ->
  take i (delete i l) ++ y :: drop i (delete i l) = <[i := y]> l.
Proof.
  intros Hi. rewrite delete_take_drop.
  rewrite take_app_length' by (rewrite length_take; lia).
  rewrite drop_app_length' by (rewrite length_take; lia).
  symmetry. apply insert_take_drop. assumption.
Qed.

Lemma idx_sizes t d : d < nDimension t -> idx (sizes t) d = idx (size t) d.
Proof. apply idx_take. Qed.

Lemma idx_strides t d : d < nDimension t -> idx (strides t) d = idx (stride t) d.
Proof. apply idx_take. Qed.

Lemma idx_delete (l : list Z) i : idx (delete i l) i = idx l (S i).
Proof. unfold idx. rewrite list_lookup_delete_ge by lia. reflexivity. Qed.

Lemma length_sizes t : wf t -> length (sizes t) = nDimension t.
Proof. intros [W _]. unfold sizes. rewrite length_take. lia. Qed.

Lemma length_strides t : wf t -> length (strides t) = nDimension t.
Proof. intros [_ W]. unfold strides. rewrite length_take. lia. Qed.

(** ** C7: squeezing an axis *)

(** C7: for an axis below the dimensionality, [squeeze1d] applied in place
    returns; when the size at the axis is 1 and the tensor has more than
    one dimension it deletes that axis from the size and stride arrays and
    the dimensionality drops by one; in every other case the state is
    untouched.  The dimensionality never falls below 1. *)
Theorem squeeze1d_removes_axis alloc_ok dimension s :
  wf (self s) ->
  dimension < nDimension (self s) ->
  let t := self s in
  let r := THCTensor_squeeze1d alloc_ok None dimension s in
  let t' := self (final r) in
  returns r = true /\
  heap (final r) = heap s /\
  (idx (size t) dimension = 1%Z /\ 1 < nDimension t ->
     nDimension t' = nDimension t - 1 /\
     sizes t' = delete dimension (sizes t) /\
     strides t' = delete dimension (strides t)) /\
  (~ (idx (size t) dimension = 1%Z /\ 1 < nDimension t) -> final r = s) /\
  1 <= nDimension t'.
Proof.
  intros W Hd. cbv zeta. rewrite squeeze1d_run.
  unfold THCTensor_set, src_of, ret.
  replace (dimension <? nDimension (self s)) with true
    by (symmetry; apply Nat.ltb_lt; assumption).
  cbn [negb].
  destruct (squeeze_tail_spec dimension (self s) W Hd) as (_ & Hn & _ & _ & Hs1 & Hs2).
  set (t1 := squeeze_tail dimension (self s)) in *.
  destruct (Z.eqb_spec (idx (size (self s)) dimension) 1) as [E1|E1];
    destruct (Nat.ltb_spec 1 (nDimension (self s))) as [E2|E2];
    cbn [andb final returns self heap];
    repeat split; try tauto; try lia.
Qed.

Lemma squeeze1d_removes_axis_witness :
  sizes (self (final (THCTensor_squeeze1d always None 1
                        (mkState (one_storage 12 1)
                                 (mkTensor [4; 1; 3]%Z [3; 3; 1]%Z 3 (Some 0) 0)))))
  = [4; 3]%Z.
Proof.
  destruct (squeeze1d_removes_axis always 1
              (mkState (one_storage 12 1)
                       (mkTensor [4; 1; 3]%Z [3; 3; 1]%Z 3 (Some 0) 0)))
    as (_ & _ & H & _).
  - split; simpl; lia.
  - simpl; lia.
  - destruct H as (_ & H & _); [split; [reflexivity | simpl; lia] | exact H].
Defined.

(** ** C5: squeezing and unsqueezing the same axis *)

(** C5, as stated, fails: squeezing axis 1 of a [4,1,3] tensor with
    strides [3,7,1] and unsqueezing it again gives strides [3,3,1]. *)
Lemma squeeze_unsqueeze_changes_stride :
  strides (self (final (THCTensor_unsqueeze1d always None 1
            (final (THCTensor_squeeze1d always None 1
                      (mkState (one_storage 12 1)
                               (mkTensor [4; 1; 3]%Z [3; 7; 1]%Z 3 (Some 0) 0)))))))
  = [3; 3; 1]%Z
  /\ strides (mkTensor [4; 1; 3]%Z [3; 7; 1]%Z 3 (Some 0) 0) = [3; 7; 1]%Z
  /\ [3; 3; 1]%Z <> [3; 7; 1]%Z.
Proof. repeat split; try (vm_compute; reflexivity). discriminate. Qed.

(** C5, amended: squeezing a size-1 axis of a tensor with more than one
    dimension and unsqueezing at the same axis, both in place, returns,
    restores the dimensionality and the size array, and restores the
    stride array except at that axis, where the stride becomes the product
    of the next dimension's size and stride, or 1 when the axis is the
    last one; the stride array is the original one exactly when the axis
    already had that stride. *)
Theorem squeeze_unsqueeze alloc_ok dimension s :
  wf (self s) ->
  dimension < nDimension (self s) ->
  idx (size (self s)) dimension = 1%Z ->
  1 < nDimension (self s) ->
  let t := self s in
  let v := if dimension + 1 <? nDimension t
           then wrap64 (idx (size t) (dimension + 1) * idx (stride t) (dimension + 1))
           else 1%Z in
  let s1 := final (THCTensor_squeeze1d alloc_ok None dimension s) in
  let r2 := THCTensor_unsqueeze1d alloc_ok None dimension s1 in
  returns r2 = true /\
  nDimension (self (final r2)) = nDimension t /\
  sizes (self (final r2)) = sizes t /\
  strides (self (final r2)) = <[dimension := v]> (strides t) /\
  (strides (self (final r2)) = strides t <-> idx (stride t) dimension = v).
Proof.
  intros W Hd H1 Hn. cbv zeta.
  rewrite squeeze1d_run. unfold THCTensor_set, src_of, ret.
  replace (dimension <? nDimension (self s)) with true
    by (symmetry; apply Nat.ltb_lt; assumption).
  replace (1 <? nDimension (self s)) with true
    by (symmetry; apply Nat.ltb_lt; assumption).
  rewrite H1. cbn [negb andb Z.eqb Pos.eqb final].
  destruct (squeeze_tail_spec dimension (self s) W Hd)
    as (W1 & N1 & _ & _ & S1 & T1).
  set (t1 := squeeze_tail dimension (self s)) in *.
  rewrite unsqueeze1d_run. unfold THCTensor_set, src_of, ret. cbn [self heap].
  replace (dimension <=? nDimension t1) with true
    by (symmetry; apply Nat.leb_le; lia).
  replace (0 <? nDimension t1) with true
    by (symmetry; apply Nat.ltb_lt; lia).
  cbn [negb final returns self heap].
  destruct (unsqueeze_tail_spec dimension t1 W1) as (_ & N2 & _ & _ & S2 & T2); [lia|].
  set (t2 := unsqueeze_tail dimension t1) in *.
  pose proof (length_sizes _ W) as LS. pose proof (length_strides _ W) as LT.
  assert (Ev : inserted_stride t1 dimension
               = if dimension + 1 <? nDimension (self s)
                 then wrap64 (idx (size (self s)) (dimension + 1)
                              * idx (stride (self s)) (dimension + 1))
                 else 1%Z).
  { unfold inserted_stride. rewrite N1.
    destruct (dimension + 1 <? nDimension (self s)) eqn:B.
    - apply Nat.ltb_lt in B.
      replace (dimension <? nDimension (self s) - 1) with true
        by (symmetry; apply Nat.ltb_lt; lia).
      rewrite <- (idx_sizes t1), <- (idx_strides t1) by lia.
      rewrite S1, T1, !idx_delete.
      rewrite idx_sizes, idx_strides by lia.
      replace (dimension + 1) with (S dimension) by lia. reflexivity.
    - apply Nat.ltb_ge in B.
      replace (dimension <? nDimension (self s) - 1) with false
        by (symmetry; apply Nat.ltb_ge; lia).
      reflexivity. }
  assert (Hsz : sizes t2 = sizes (self s)).
  { rewrite S2, S1. rewrite reinsert_deleted by lia.
    apply list_insert_id. rewrite <- H1, <- idx_sizes by lia.
    apply lookup_idx. lia. }
  assert (Hst : strides t2 = <[dimension := inserted_stride t1 dimension]> (strides (self s))).
  { rewrite T2, T1. apply reinsert_deleted. lia. }
  rewrite <- Ev.
  split; [reflexivity|]. split; [lia|]. split; [assumption|]. split; [assumption|].
  rewrite Hst. split.
  - intros E. rewrite <- idx_strides by lia. rewrite <- E.
    apply idx_insert_eq. lia.
  - intros E. apply list_insert_id. rewrite <- E, <- idx_strides by lia.
    apply lookup_idx. lia.
Qed.

Lemma squeeze_unsqueeze_witness :
  sizes (self (final (THCTensor_unsqueeze1d always None 1
          (final (THCTensor_squeeze1d always None 1
                    (mkState (one_storage 12 1)
                             (mkTensor [4; 1; 3]%Z [3; 7; 1]%Z 3 (Some 0) 0)))))))
  = [4; 1; 3]%Z.
Proof.
  destruct (squeeze_unsqueeze always 1
              (mkState (one_storage 12 1)
                       (mkTensor [4; 1; 3]%Z [3; 7; 1]%Z 3 (Some 0) 0)))
    as (_ & _ & H & _).
  - split; simpl; lia.
  - simpl; lia.
  - reflexivity.
  - simpl; lia.
  - exact H.
Defined.

(** ** Rebinding the storage *)

Lemma setStorageNd_run alloc_ok p off n sz sd s :
  THCTensor_setStorageNd alloc_ok p off n sz sd s =
  match rebind_phase alloc_ok p off s with
  | Ok _ s1 => THCTensor_resizeNd alloc_ok n sz sd s1
  | Err e s1 => Err e s1
  end.
Proof.
  unfold THCTensor_setStorageNd, rebind_phase. run.
  repeat (split_match; simpl; try reflexivity); congruence.
Qed.

Lemma rebind_phase_arrays alloc_ok p off s :
  let t1 := self (final (rebind_phase alloc_ok p off s)) in
  size t1 = size (self s) /\ stride t1 = stride (self s) /\
  nDimension t1 = nDimension (self s).
Proof.
  unfold rebind_phase. run.
  repeat (split_match; simpl; try tauto).
Qed.

Lemma rebind_phase_present alloc_ok l off s :
  is_Some (heap s !! l) ->
  (forall l0, storage (self s) = Some l0 -> is_Some (heap s !! l0)) ->
  (0 <= off)%Z ->
  exists h1,
    is_Some (h1 !! l) /\
    rebind_phase alloc_ok (Some l) off s
    = Ok tt (mkState h1 (set_storageOffset (set_storage (self s) (Some l)) off)).
Proof.
  intros [st Hl] Hvalid Hoff.
  assert (Hneg : (off <? 0)%Z = false) by (apply Z.ltb_ge; assumption).
  unfold rebind_phase. run.
  destruct (storage (self s)) as [l0|] eqn:E; simpl.
  - destruct (Nat.eqb_spec l0 l) as [->|Hne]; simpl.
    + rewrite Hneg. simpl. exists (heap s). split; [eauto|].
      unfold set_storageOffset, set_storage. simpl. rewrite E. reflexivity.
    + destruct (Hvalid l0 eq_refl) as [st0 Hl0]. rewrite Hl0. simpl.
      destruct (THCStorage.refcount st0 - 1 =? 0)%Z; simpl.
      * rewrite lookup_delete_ne by assumption. rewrite Hl. simpl.
        rewrite Hneg. simpl. eexists. split; [|reflexivity].
        rewrite lookup_insert_eq. eauto.
      * rewrite lookup_insert_ne by assumption. rewrite Hl. simpl.
        rewrite Hneg. simpl. eexists. split; [|reflexivity].
        rewrite lookup_insert_eq. eauto.
  - rewrite Hl. simpl. rewrite Hneg. simpl. eexists. split; [|reflexivity].
    rewrite lookup_insert_eq. eauto.
Qed.

(** With a live storage attached, [resizeNd] returns or runs out of memory. *)
Lemma resizeNd_with_storage alloc_ok n sz sd s l :
  storage (self s) = Some l -> is_Some (heap s !! l) ->
  let r := THCTensor_resizeNd alloc_ok n sz sd s in
  returns r = true \/ exists s', r = Err AllocError s'.
Proof.
  intros Hst [st Hl]. unfold THCTensor_resizeNd. run.
  destruct (resizeNd_scan (self s) sz sd n 0 0 true) as [nDim ok].
  destruct (if negb (nDim =? nDimension (self s)) then false else ok); [left; reflexivity|].
  destruct (0 <? nDim); [|left; reflexivity].
  destruct (nDim =? nDimension (self s)); simpl;
    match goal with
    | |- context [resizeNd_fill sz sd ?k ?t0 ?tot] =>
      destruct (fill_fields sz sd k t0 tot) as (_ & Hf & _);
      destruct (resizeNd_fill sz sd k t0 tot) as [t' total]
    end; simpl in *; rewrite Hf, Hst; simpl;
    repeat (rewrite ?Hl; simpl; try split_match; simpl);
    first [left; reflexivity | right; eexists; reflexivity | exfalso; congruence].
Qed.

Lemma new_dimension_positive t :
  positive_sizes t -> new_dimension (nDimension t) (size t) = nDimension t.
Proof.
  intros [W P]. unfold new_dimension. fold (sizes t).
  rewrite leading_positive_all by assumption. apply length_sizes. assumption.
Qed.

(** ** C9: assigning one tensor to another *)


(** Assigning from a tensor with a live storage, positive sizes and
    non-negative strides. *)
Lemma set_live_source alloc_ok src s l :
  wf (self s) ->
  positive_sizes src ->
  Forall (fun x => 0 <= x)%Z (strides src) ->
  (0 <= storageOffset src)%Z ->
  storage src = Some l ->
  is_Some (heap s !! l) ->
  (forall l0, storage (self s) = Some l0 -> is_Some (heap s !! l0)) ->
  let r := THCTensor_set alloc_ok (Some src) s in
  (returns r = true \/ exists s', r = Err AllocError s') /\
  wf (self (final r)) /\
  nDimension (self (final r)) = nDimension src /\
  sizes (self (final r)) = sizes src /\
  strides (self (final r)) = strides src /\
  storageOffset (self (final r)) = storageOffset src /\
  storage (self (final r)) = storage src.
Proof.
  intros W P Hnn Hoff Hsrc Hl Hvalid. cbv zeta.
  unfold THCTensor_set. rewrite setStorageNd_run, Hsrc.
  destruct (rebind_phase_present alloc_ok l (storageOffset src) s Hl Hvalid Hoff)
    as (h1 & Hh1 & ->).
  set (t0 := set_storageOffset (set_storage (self s) (Some l)) (storageOffset src)).
  set (s1 := mkState h1 t0).
  assert (W0 : wf t0) by exact W.
  split; [apply (resizeNd_with_storage alloc_ok _ _ _ s1 l); [reflexivity | exact Hh1]|].
  rewrite resizeNd_self. change (self s1) with t0.
  pose proof (geometry_nDimension (nDimension src) (size src) (Some (stride src)) t0) as Hn.
  rewrite (new_dimension_positive src P) in Hn.
  destruct (geometry_fields (nDimension src) (size src) (Some (stride src)) t0) as [F1 F2].
  destruct (geometry_agrees (nDimension src) (size src) (Some (stride src)) t0 W0)
    as [[W1 W2] Hag].
  rewrite (new_dimension_positive src P) in Hag.
  destruct P as [[Ws1 Ws2] Ppos].
  set (t' := resizeNd_geometry (nDimension src) (size src) (Some (stride src)) t0) in *.
  split; [split; assumption|]. split; [assumption|]. repeat split.
  - unfold sizes. rewrite Hn. apply take_idx_eq; [lia | lia |].
    intros d Hd. symmetry. apply Hag. assumption.
  - unfold strides. rewrite Hn. apply take_idx_eq; [lia | lia |].
    intros d Hd. destruct (Hag d Hd) as [_ E].
    unfold explicit_stride in E.
    assert (Hge : (0 <= idx (stride src) d)%Z).
    { rewrite <- idx_strides by assumption.
      apply (Forall_lookup_1 _ _ d _ Hnn). apply lookup_idx.
      unfold strides. rewrite length_take. lia. }
    apply Z.leb_le in Hge. rewrite Hge in E. symmetry. exact E.
  - rewrite F2. reflexivity.
  - rewrite F1. reflexivity.
Qed.



(** X21: the two-tensor form of [squeeze1d].  With a source that has a
    live storage, a non-negative offset, positive sizes and non-negative
    strides the call returns or fails on the grow request; when it
    returns, [self] has the geometry of the source with the axis removed
    if its size is 1 and the source has more than one dimension, and the
    geometry of the source as it is otherwise. *)
Lemma squeeze1d_from_source alloc_ok src s l dimension :
  wf (self s) ->
  positive_sizes src ->
  Forall (fun x => 0 <= x)%Z (strides src) ->
  (0 <= storageOffset src)%Z ->
  storage src = Some l ->
  is_Some (heap s !! l) ->
  (forall l0, storage (self s) = Some l0 -> is_Some (heap s !! l0)) ->
  dimension < nDimension src ->
  let r := THCTensor_squeeze1d alloc_ok (Some src) dimension s in
  let t' := self (final r) in
  (returns r = true \/ exists s', r = Err AllocError s') /\
  (returns r = true ->
   (idx (size src) dimension = 1%Z /\ 1 < nDimension src ->
      nDimension t' = nDimension src - 1 /\
      sizes t' = delete dimension (sizes src) /\
      strides t' = delete dimension (strides src)) /\
   (~ (idx (size src) dimension = 1%Z /\ 1 < nDimension src) ->
      nDimension t' = nDimension src /\
      sizes t' = sizes src /\ strides t' = strides src)).
Proof.
  intros W P Hnn Hoff Hsrc Hl Hvalid Hd. cbv zeta.
  rewrite squeeze1d_run. unfold src_of.
  replace (dimension <? nDimension src) with true
    by (symmetry; apply Nat.ltb_lt; assumption).
  cbn [negb].
  destruct (set_live_source alloc_ok src s l W P Hnn Hoff Hsrc Hl Hvalid)
    as (Hret & W' & N' & S' & T' & _).
  destruct (THCTensor_set alloc_ok (Some src) s) as [[] s2|e s2];
    cbn [final returns] in *.
  - assert (Hd2 : dimension < nDimension (self s2)) by lia.
    destruct (squeeze_tail_spec dimension (self s2) W' Hd2)
      as (_ & N2 & _ & _ & S2 & T2).
    set (t2 := squeeze_tail dimension (self s2)) in *.
    destruct (Z.eqb_spec (idx (size src) dimension) 1) as [E1|E1];
      destruct (Nat.ltb_spec 1 (nDimension src)) as [E2|E2];
      cbn [andb final returns self];
      (split; [left; reflexivity|]); intros _;
      (split; [intros [? ?] | intros ?]);
      try lia; try tauto;
      repeat split; congruence.
  - split; [|discriminate].
    destruct Hret as [Hret|Hret]; [discriminate | right; exact Hret].
Qed.

(** ** C8: the element count *)

Lemma nElement_loop_spec t : forall fuel d acc,
  wrap64 acc = acc -> d + fuel <= length (size t) ->
  nElement_loop t fuel d acc = wrap64 (acc * Zprod (take fuel (drop d (size t)))).
Proof.
  induction fuel as [|fuel IH]; intros d acc Hacc Hlen; simpl.
  - rewrite Z.mul_1_r. symmetry. assumption.
  - rewrite IH by (try apply wrap64_idem; lia).
    rewrite (drop_S (size t) (idx (size t) d) d) by (apply lookup_idx; lia).
    simpl. rewrite wrap64_mul_l. f_equal. lia.
Qed.

Lemma nElement_product t :
  wf t -> nDimension t <> 0 -> THCTensor_nElement t = wrap64 (Zprod (sizes t)).
Proof.
  intros [W _] Hn. unfold THCTensor_nElement.
  replace (nDimension t =? 0) with false by (symmetry; apply Nat.eqb_neq; assumption).
  rewrite nElement_loop_spec by (try reflexivity; lia).
  rewrite drop_0, Z.mul_1_l. reflexivity.
Qed.

Lemma Zprod_zero l : Zprod l = 0%Z <-> exists d, d < length l /\ idx l d = 0%Z.
Proof.
  induction l as [|x l IH]; simpl.
  - split; [discriminate | intros (d & Hd & _); lia].
  - rewrite Z.mul_eq_0, IH. split.
    + intros [->|(d & Hd & E)]; [exists 0; split; [lia | reflexivity]|].
      exists (S d). split; [lia | exact E].
    + intros ([|d] & Hd & E); [left; exact E|].
      right. exists d. split; [lia | exact E].
Qed.

Lemma sizes_zero t :
  wf t ->
  Zprod (sizes t) = 0%Z <-> exists d, d < nDimension t /\ idx (size t) d = 0%Z.
Proof.
  intros W. rewrite Zprod_zero, (length_sizes t W). split.
  - intros (d & Hd & E). exists d. rewrite idx_sizes in E by assumption. tauto.
  - intros (d & Hd & E). exists d. rewrite idx_sizes by assumption. tauto.
Qed.

Lemma nElement_zero_iff t :
  wf t -> in_int64 (Zprod (sizes t)) ->
  THCTensor_nElement t = 0%Z <->
  nDimension t = 0 \/ exists d, d < nDimension t /\ idx (size t) d = 0%Z.
Proof.
  intros W Hr. rewrite <- (sizes_zero t W).
  destruct (decide (nDimension t = 0)) as [Hn|Hn].
  - unfold THCTensor_nElement. rewrite Hn. simpl. tauto.
  - rewrite nElement_product, wrap64_id by assumption. tauto.
Qed.

(** C8, as stated, fails: the element count of a [2^32, 2^32] tensor is
    computed as 0 although it has two dimensions and no size is 0. *)
Lemma nElement_wraps_to_zero :
  THCTensor_nElement expanded_view = 0%Z
  /\ ~ (nDimension expanded_view = 0
        \/ exists d, d < nDimension expanded_view /\ idx (size expanded_view) d = 0%Z).
Proof.
  split; [vm_compute; reflexivity|].
  intros [H|(d & Hd & E)]; [discriminate|].
  simpl in Hd. destruct d as [|[|d]]; [discriminate E | discriminate E | lia].
Qed.

(** C8, amended: the element count is 0 for a tensor without dimensions
    and otherwise the product of the sizes reduced to 64 bits; when that
    product fits in 64 bits the count is 0 exactly when there is no
    dimension or some size is 0, and it is the product otherwise. *)
Theorem nElement_value t :
  wf t ->
  (nDimension t = 0 -> THCTensor_nElement t = 0%Z) /\
  (nDimension t <> 0 -> THCTensor_nElement t = wrap64 (Zprod (sizes t))) /\
  (in_int64 (Zprod (sizes t)) ->
     (THCTensor_nElement t = 0%Z <->
        nDimension t = 0 \/ exists d, d < nDimension t /\ idx (size t) d = 0%Z) /\
     (nDimension t <> 0 -> THCTensor_nElement t = Zprod (sizes t))).
Proof.
  intros W. split; [|split].
  - intros Hn. unfold THCTensor_nElement. rewrite Hn. reflexivity.
  - apply nElement_product. assumption.
  - intros Hr. split.
    + apply nElement_zero_iff; assumption.
    + intros Hn. rewrite nElement_product, wrap64_id by assumption. reflexivity.
Qed.

Lemma nElement_value_witness :
  THCTensor_nElement (mkTensor [4; 3]%Z [3; 1]%Z 2 (Some 0) 0) = 12%Z.
Proof.
  destruct (nElement_value (mkTensor [4; 3]%Z [3; 1]%Z 2 (Some 0) 0)) as (_ & _ & H).
  - split; simpl; lia.
  - destruct H as [_ H].
    + unfold in_int64. simpl. lia.
    + apply H. simpl. lia.
Defined.

(** ** C10: sizes stay positive *)

Lemma positive_sizes_arrays t t0 :
  size t0 = size t -> stride t0 = stride t -> nDimension t0 = nDimension t ->
  positive_sizes t -> positive_sizes t0.
Proof.
  unfold positive_sizes, wf, sizes. intros -> -> ->. tauto.
Qed.

Lemma resizeNd_positive alloc_ok n sz sd s :
  wf (self s) ->
  positive_sizes (self (final (THCTensor_resizeNd alloc_ok n sz sd s))).
Proof. intros W. rewrite resizeNd_self. apply geometry_positive. assumption. Qed.

(** [setStorageNd] either stops before the geometry is touched or leaves
    the geometry [resizeNd] computes. *)
Lemma setStorageNd_self alloc_ok p off n sz sd s :
  let r := THCTensor_setStorageNd alloc_ok p off n sz sd s in
  exists t0,
    size t0 = size (self s) /\ stride t0 = stride (self s) /\
    nDimension t0 = nDimension (self s) /\
    ((returns r = false /\ self (final r) = t0) \/
     self (final r) = resizeNd_geometry n sz sd t0).
Proof.
  cbv zeta. rewrite setStorageNd_run.
  pose proof (rebind_phase_arrays alloc_ok p off s) as Harr. cbv zeta in Harr.
  destruct (rebind_phase alloc_ok p off s) as [[] s1|e s1]; simpl in Harr;
    exists (self s1); (split; [tauto|]); (split; [tauto|]); (split; [tauto|]).
  - right. apply resizeNd_self.
  - left. split; reflexivity.
Qed.

Lemma setStorageNd_positive alloc_ok p off n sz sd s :
  positive_sizes (self s) ->
  positive_sizes (self (final (THCTensor_setStorageNd alloc_ok p off n sz sd s))).
Proof.
  intros P.
  destruct (setStorageNd_self alloc_ok p off n sz sd s)
    as (t0 & E1 & E2 & E3 & [[_ ->] | ->]).
  - apply (positive_sizes_arrays (self s)); assumption.
  - apply geometry_positive.
    apply (positive_sizes_arrays (self s) t0 E1 E2 E3 P).
Qed.

Lemma set_positive alloc_ok src s :
  positive_sizes (self s) ->
  positive_sizes (self (final (THCTensor_set alloc_ok src s))).
Proof.
  intros P. destruct src as [t|]; simpl; [|assumption].
  apply setStorageNd_positive. assumption.
Qed.

(** When [THCTensor_set] returns, [self] has the dimensionality of what
    [src] points to, provided that one has positive sizes. *)
Lemma set_returns_dimension alloc_ok src s s2 :
  (forall t, src = Some t -> positive_sizes t) ->
  THCTensor_set alloc_ok src s = Ok tt s2 ->
  nDimension (self s2) = nDimension (src_of src (self s2)).
Proof.
  intros Hsrc H. destruct src as [t|]; simpl in *; [|reflexivity].
  destruct (setStorageNd_self alloc_ok (storage t) (storageOffset t) (nDimension t)
              (size t) (Some (stride t)) s) as (t0 & _ & _ & _ & Hcase).
  rewrite H in Hcase. simpl in Hcase.
  destruct Hcase as [[? _] | ->]; [discriminate|].
  rewrite geometry_nDimension. apply new_dimension_positive. apply Hsrc. reflexivity.
Qed.

Lemma set_returns_source alloc_ok src s s2 :
  THCTensor_set alloc_ok src s = Ok tt s2 ->
  src_of src (self s2) = src_of src (self s).
Proof.
  destruct src; simpl; [reflexivity | intros [= <-]; reflexivity].
Qed.

Lemma resizeAs_positive alloc_ok src s :
  positive_sizes (self s) ->
  positive_sizes (self (final (THCTensor_resizeAs alloc_ok src s))).
Proof.
  intros P. unfold THCTensor_resizeAs. run.
  destruct (negb _); [|assumption].
  apply resizeNd_positive, P.
Qed.

Lemma squeeze1d_positive alloc_ok src dimension s :
  (forall t, src = Some t -> positive_sizes t) ->
  positive_sizes (self s) ->
  positive_sizes (self (final (THCTensor_squeeze1d alloc_ok src dimension s))).
Proof.
  intros Hsrc P. rewrite squeeze1d_run.
  destruct (Nat.ltb_spec dimension (nDimension (src_of src (self s)))) as [Hd|Hd];
    simpl; [|assumption].
  pose proof (set_positive alloc_ok src s P) as P2.
  pose proof (set_returns_dimension alloc_ok src s) as Hn.
  pose proof (set_returns_source alloc_ok src s) as Hsame.
  destruct (THCTensor_set alloc_ok src s) as [[] s2|e s2]; simpl in *; [|assumption].
  specialize (Hn s2 Hsrc eq_refl). specialize (Hsame s2 eq_refl).
  destruct (_ && _); simpl; [|assumption].
  assert (Hd2 : dimension < nDimension (self s2)) by (rewrite Hn, Hsame; assumption).
  destruct P2 as [W2 Pos2].
  destruct (squeeze_tail_spec dimension (self s2) W2 Hd2) as (W' & _ & _ & _ & S' & _).
  split; [assumption|]. rewrite S'. apply Forall_delete. assumption.
Qed.

Lemma unsqueeze1d_positive alloc_ok src dimension s :
  (forall t, src = Some t -> positive_sizes t) ->
  positive_sizes (self s) ->
  positive_sizes (self (final (THCTensor_unsqueeze1d alloc_ok src dimension s))).
Proof.
  intros Hsrc P. rewrite unsqueeze1d_run.
  destruct (Nat.leb_spec dimension (nDimension (src_of src (self s)))) as [Hd|Hd];
    simpl; [|assumption].
  destruct (negb _); simpl; [assumption|].
  pose proof (set_positive alloc_ok src s P) as P2.
  pose proof (set_returns_dimension alloc_ok src s) as Hn.
  pose proof (set_returns_source alloc_ok src s) as Hsame.
  destruct (THCTensor_set alloc_ok src s) as [[] s2|e s2]; simpl in *; [|assumption].
  specialize (Hn s2 Hsrc eq_refl). specialize (Hsame s2 eq_refl).
  assert (Hd2 : dimension <= nDimension (self s2)) by (rewrite Hn, Hsame; assumption).
  destruct P2 as [W2 Pos2].
  destruct (unsqueeze_tail_spec dimension (self s2) W2 Hd2) as (W' & _ & _ & _ & S' & _).
  split; [assumption|]. rewrite S'.
  apply Forall_app. split; [apply Forall_take; assumption|].
  apply Forall_cons. split; [lia | apply Forall_drop; assumption].
Qed.

(** C10, as stated, fails in its consequence: [resizeNd] builds the
    [2^32, 2^32] tensor with strides 0 on a one-element storage; all its
    sizes are positive and it has two dimensions, yet its element count is
    computed as 0. *)
Lemma positive_sizes_zero_elements :
  THCTensor_resizeNd always 2 [4294967296; 4294967296]%Z (Some [0; 0]%Z)
    (mkState (one_storage 0 1) (view_on 0))
  = Ok tt (mkState (one_storage 1 1) expanded_view)
  /\ positive_sizes expanded_view
  /\ THCTensor_nElement expanded_view = 0%Z
  /\ nDimension expanded_view <> 0.
Proof.
  split; [vm_compute; reflexivity|].
  split; [|split; [vm_compute; reflexivity | discriminate]].
  split; [split; simpl; lia|]. unfold sizes; simpl.
  repeat first [apply Forall_nil_2 | apply Forall_cons_2; [lia|]].
Qed.

(** C10, amended: [resizeNd], [resizeAs], [setStorageNd], [set],
    [squeeze1d] and [unsqueeze1d] each leave a tensor whose stored sizes
    are all strictly positive when they start from one (and, for the last
    two, when the source tensor is one as well), whether they return or
    raise; and for such a tensor whose size product fits in 64 bits the
    element count is 0 exactly when it has no dimension. *)
Theorem positive_sizes_preserved alloc_ok s :
  positive_sizes (self s) ->
  (forall n sz sd,
     positive_sizes (self (final (THCTensor_resizeNd alloc_ok n sz sd s)))) /\
  (forall src,
     positive_sizes (self (final (THCTensor_resizeAs alloc_ok src s)))) /\
  (forall p off n sz sd,
     positive_sizes (self (final (THCTensor_setStorageNd alloc_ok p off n sz sd s)))) /\
  (forall src,
     positive_sizes (self (final (THCTensor_set alloc_ok src s)))) /\
  (forall src dimension,
     (forall t, src = Some t -> positive_sizes t) ->
     positive_sizes (self (final (THCTensor_squeeze1d alloc_ok src dimension s)))) /\
  (forall src dimension,
     (forall t, src = Some t -> positive_sizes t) ->
     positive_sizes (self (final (THCTensor_unsqueeze1d alloc_ok src dimension s)))) /\
  (in_int64 (Zprod (sizes (self s))) ->
   (THCTensor_nElement (self s) = 0%Z <-> nDimension (self s) = 0)).
Proof.
  intros P.
  split; [intros; apply resizeNd_positive, P|].
  split; [intros; apply resizeAs_positive, P|].
  split; [intros; apply setStorageNd_positive, P|].
  split; [intros; apply set_positive, P|].
  split; [intros; apply squeeze1d_positive; assumption|].
  split; [intros; apply unsqueeze1d_positive; assumption|].
  intros Hr. destruct P as [W Pos].
  rewrite (nElement_zero_iff _ W Hr). split; [|tauto].
  intros [Hn|(d & Hd & E)]; [assumption|]. exfalso.
  assert (Hpos : (0 < idx (size (self s)) d)%Z).
  { rewrite <- idx_sizes by assumption.
    apply (Forall_lookup_1 _ _ d _ Pos). apply lookup_idx.
    rewrite length_sizes; assumption. }
  lia.
Qed.

Lemma positive_sizes_preserved_witness :
  positive_sizes
    (self (final (THCTensor_unsqueeze1d always None 1
                    (mkState (one_storage 12 1)
                             (mkTensor [4; 3]%Z [3; 1]%Z 2 (Some 0) 0))))).
Proof.
  destruct (positive_sizes_preserved always
              (mkState (one_storage 12 1) (mkTensor [4; 3]%Z [3; 1]%Z 2 (Some 0) 0)))
    as (_ & _ & _ & _ & _ & H & _).
  - split; [split; simpl; lia|]. unfold sizes; simpl.
    repeat first [apply Forall_nil_2 | apply Forall_cons_2; [lia|]].
  - apply H. intros t Ht. discriminate.
Defined.

(** * Further properties of the entry points *)

(** ** More arithmetic *)

Lemma wrap64_add_l x y : wrap64 (wrap64 x + y) = wrap64 (x + y).
Proof.
  apply wrap64_congr.
  rewrite (Zplus_mod (wrap64 x)), wrap64_eqm, <- Zplus_mod. reflexivity.
Qed.

Lemma wrap64_add_r x y : wrap64 (x + wrap64 y) = wrap64 (x + y).
Proof. rewrite (Z.add_comm x), wrap64_add_l. f_equal. lia. Qed.

Lemma wrap64_mul_r x y : wrap64 (x * wrap64 y) = wrap64 (x * y).
Proof. rewrite (Z.mul_comm x), wrap64_mul_l. f_equal. lia. Qed.

Lemma wrap64_accumulate total a b c :
  wrap64 (wrap64 (total + wrap64 (wrap64 (a - 1) * b)) + c)
  = wrap64 (total + ((a - 1) * b + c)).
Proof.
  rewrite wrap64_add_l.
  replace (total + wrap64 (wrap64 (a - 1) * b) + c)%Z
    with (total + c + wrap64 (wrap64 (a - 1) * b))%Z by lia.
  rewrite wrap64_add_r, <- (wrap64_add_r (total + c) (wrap64 (a - 1) * b)).
  rewrite wrap64_mul_l, wrap64_add_r. f_equal. lia.
Qed.

(** ** What resizeNd asks of the storage *)

Lemma fill_total sz sd : forall k t total,
  k <= length (size t) -> k <= length (stride t) ->
  wrap64 total = total ->
  snd (resizeNd_fill sz sd k t total)
  = wrap64 (total + span (fst (resizeNd_fill sz sd k t total)) k).
Proof.
  induction k as [|d IH]; intros t total L1 L2 Htot.
  - simpl. rewrite Z.add_0_r. symmetry. assumption.
  - cbn [resizeNd_fill span].
    match goal with
    | |- context [resizeNd_fill sz sd d ?t2 _] => set (t2' := t2)
    end.
    assert (L1' : length (size t2') = length (size t))
      by (subst t2'; simpl; rewrite length_insert; reflexivity).
    assert (L2' : length (stride t2') = length (stride t))
      by (subst t2'; simpl; rewrite length_insert; reflexivity).
    match goal with
    | |- context [resizeNd_fill sz sd d t2' ?tot] =>
      pose proof (fill_spec sz sd d t2' tot) as Hspec;
      specialize (IH t2' tot);
      set (r := resizeNd_fill sz sd d t2' tot) in *
    end.
    cbv zeta in Hspec.
    destruct Hspec as (_ & _ & _ & _ & _ & Hkeep & _); [lia | lia |].
    rewrite IH by (try apply wrap64_idem; lia).
    destruct (Hkeep d) as [E1 E2]; [lia|].
    assert (I1 : idx (size (fst r)) d = idx (size t2') d)
      by (unfold idx; rewrite E1; reflexivity).
    assert (I2 : idx (stride (fst r)) d = idx (stride t2') d)
      by (unfold idx; rewrite E2; reflexivity).
    rewrite I1, I2. apply wrap64_accumulate.
Qed.

Lemma resizeNd_run_written alloc_ok n sz sd s :
  wf (self s) -> is_noop n sz sd (self s) = false -> 0 < new_dimension n sz ->
  THCTensor_resizeNd alloc_ok n sz sd s
  = storage_request alloc_ok (heap s) (resizeNd_geometry n sz sd (self s)).
Proof.
  intros [W1 W2] Hnoop Hpos.
  unfold THCTensor_resizeNd, resizeNd_geometry, is_noop, storage_request in *. run.
  pose proof (scan_new_dimension (self s) sz sd n) as Hfst.
  destruct (resizeNd_scan (self s) sz sd n 0 0 true) as [nDim ok].
  simpl in Hfst. subst nDim. rewrite Hnoop.
  replace (0 <? new_dimension n sz) with true by (symmetry; apply Nat.ltb_lt; assumption).
  destruct (new_dimension n sz =? nDimension (self s)) eqn:E; simpl.
  - apply Nat.eqb_eq in E. rewrite <- E.
    pose proof (fill_fields sz sd (new_dimension n sz) (self s) 1) as Hf.
    pose proof (fill_total sz sd (new_dimension n sz) (self s) 1) as Ht.
    destruct (resizeNd_fill sz sd (new_dimension n sz) (self s) 1) as [t' total].
    simpl in *. destruct Hf as (Hn & _ & _).
    rewrite Ht by (try reflexivity; lia).
    unfold extent. rewrite Hn, <- E.
    repeat (split_match; simpl; rewrite ?wrap64_add_l in *;
            try reflexivity; try congruence);
      finish_bools.
  - match goal with
    | |- context [resizeNd_fill sz sd ?k ?t0 1] =>
      pose proof (fill_fields sz sd k t0 1) as Hf;
      pose proof (fill_total sz sd k t0 1) as Ht;
      destruct (resizeNd_fill sz sd k t0 1) as [t' total]
    end.
    simpl in *. destruct Hf as (Hn & _ & _).
    rewrite !length_THRealloc in Ht.
    rewrite Ht by (try reflexivity; lia).
    unfold extent. rewrite Hn.
    repeat (split_match; simpl; rewrite ?wrap64_add_l in *;
            try reflexivity; try congruence);
      finish_bools.
Qed.

Lemma resizeNd_run_empty alloc_ok n sz sd s :
  is_noop n sz sd (self s) = false -> new_dimension n sz = 0 ->
  THCTensor_resizeNd alloc_ok n sz sd s
  = Ok tt (mkState (heap s) (set_nDimension (self s) 0)).
Proof.
  intros Hnoop Hz. unfold THCTensor_resizeNd, is_noop in *. run.
  pose proof (scan_new_dimension (self s) sz sd n) as Hfst.
  destruct (resizeNd_scan (self s) sz sd n 0 0 true) as [nDim ok].
  simpl in Hfst. subst nDim. rewrite Hnoop, Hz. reflexivity.
Qed.

(** The three ways a call of [resizeNd] can go. *)
Lemma resizeNd_cases alloc_ok n sz sd s :
  wf (self s) ->
  let r := THCTensor_resizeNd alloc_ok n sz sd s in
  (is_noop n sz sd (self s) = true /\ r = Ok tt s) \/
  (is_noop n sz sd (self s) = false /\ new_dimension n sz = 0 /\
   r = Ok tt (mkState (heap s) (set_nDimension (self s) 0))) \/
  (is_noop n sz sd (self s) = false /\ 0 < new_dimension n sz /\
   r = storage_request alloc_ok (heap s) (resizeNd_geometry n sz sd (self s))).
Proof.
  intros W. cbv zeta. destruct (is_noop n sz sd (self s)) eqn:Hnoop.
  - left. split; [reflexivity | apply resizeNd_noop_run; assumption].
  - right. destruct (decide (new_dimension n sz = 0)) as [Hz|Hz].
    + left. repeat split; [assumption | apply resizeNd_run_empty; assumption].
    + right. repeat split; [lia | apply resizeNd_run_written; [assumption .. | lia]].
Qed.

Lemma storage_request_heap alloc_ok h t' :
  let r := storage_request alloc_ok h t' in
  self (final r) = t' /\
  (heap (final r) = h \/
   exists l st,
     storage t' = Some l /\ h !! l = Some st /\
     (THCStorage.size st < wrap64 (extent t'))%Z /\ returns r = true /\
     heap (final r)
     = <[l := THCStorage.mk (wrap64 (extent t')) (THCStorage.scalar_type st)
                            (THCStorage.refcount st)]> h).
Proof.
  unfold storage_request. cbv zeta.
  destruct (0 <? wrap64 (extent t'))%Z; [|simpl; tauto].
  destruct (storage t') as [l|] eqn:Hst; [|simpl; tauto].
  destruct (h !! l) as [st|] eqn:Hl; [|simpl; tauto].
  destruct (Z.ltb_spec (THCStorage.size st) (wrap64 (extent t'))); [|simpl; tauto].
  destruct (alloc_ok _); simpl; [|tauto].
  split; [reflexivity|]. right. exists l, st. repeat split; try assumption; reflexivity.
Qed.

Lemma resizeNd_heap alloc_ok n sz sd s :
  wf (self s) ->
  let r := THCTensor_resizeNd alloc_ok n sz sd s in
  heap (final r) = heap s \/
  exists l st fp,
    storage (self s) = Some l /\ heap s !! l = Some st /\
    (THCStorage.size st < fp)%Z /\ returns r = true /\
    heap (final r)
    = <[l := THCStorage.mk fp (THCStorage.scalar_type st) (THCStorage.refcount st)]>
        (heap s).
Proof.
  intros W. cbv zeta.
  destruct (resizeNd_cases alloc_ok n sz sd s W)
    as [[_ ->] | [(_ & _ & ->) | (_ & _ & ->)]]; try (left; reflexivity).
  destruct (storage_request_heap alloc_ok (heap s) (resizeNd_geometry n sz sd (self s)))
    as [_ [H | (l & st & Hst & Hl & Hlt & Hret & Hh)]]; [left; assumption|].
  right. exists l, st, (wrap64 (extent (resizeNd_geometry n sz sd (self s)))).
  destruct (geometry_fields n sz sd (self s)) as [F _]. rewrite F in Hst.
  repeat split; assumption.
Qed.

(** ** C9: what assignment does to the storage of [self] *)



(** ** X1: capacity only grows *)

(** X1: whatever the outcome, [resizeNd] keeps every storage that was in
    the heap, with its reference count and scalar type and with a capacity
    at least as large as before, touches no storage but the one [self]
    points to, and adds no storage. *)
Theorem resizeNd_capacity_grows_only alloc_ok n sz sd s :
  wf (self s) ->
  let h' := heap (final (THCTensor_resizeNd alloc_ok n sz sd s)) in
  (forall l st, heap s !! l = Some st ->
     exists st',
       h' !! l = Some st' /\
       (THCStorage.size st <= THCStorage.size st')%Z /\
       THCStorage.scalar_type st' = THCStorage.scalar_type st /\
       THCStorage.refcount st' = THCStorage.refcount st /\
       (storage (self s) <> Some l -> st' = st)) /\
  (forall l, heap s !! l = None -> h' !! l = None).
Proof.
  intros W. cbv zeta.
  destruct (resizeNd_heap alloc_ok n sz sd s W)
    as [-> | (l0 & st0 & fp & Hst & Hl0 & Hlt & _ & ->)].
  - split; [|tauto]. intros l st Hl. exists st. repeat split; try assumption; lia.
  - split.
    + intros l st Hl. destruct (decide (l = l0)) as [->|Hne].
      * rewrite Hl0 in Hl. injection Hl as <-.
        eexists. rewrite lookup_insert_eq. split; [reflexivity|].
        simpl. repeat split; try lia. intros Hc. exfalso. apply Hc. assumption.
      * exists st. rewrite lookup_insert_ne by congruence.
        repeat split; try assumption; lia.
    + intros l Hl. rewrite lookup_insert_ne; [assumption|].
      intros E. rewrite <- E in Hl.
      pose proof (eq_trans (eq_sym Hl0) Hl) as Habs. discriminate Habs.
Qed.

Lemma resizeNd_capacity_grows_only_witness :
  exists st',
    heap (final (THCTensor_resizeNd always 2 [4; 3]%Z None
                   (mkState (one_storage 5 1) (view_on 0)))) !! 0 = Some st' /\
    (5 <= THCStorage.size st')%Z.
Proof.
  destruct (resizeNd_capacity_grows_only always 2 [4; 3]%Z None
              (mkState (one_storage 5 1) (view_on 0))) as [H _].
  - split; simpl; lia.
  - destruct (H 0 (THCStorage.mk 5 Float 1)) as (st' & H1 & H2 & _).
    + vm_compute. reflexivity.
    + exists st'. split; [exact H1 | exact H2].
Defined.

(** ** X2: the tensor fits its storage *)

(** X2: when [resizeNd] returns having changed the tensor, and the tensor
    then has dimensions and a positive extent (1 plus the sum of
    (size-1)*stride over the dimensions plus the offset, in 64 bits), its
    storage exists and holds at least that many elements. *)
Theorem resizeNd_fits_storage alloc_ok n sz sd s s' :
  wf (self s) ->
  THCTensor_resizeNd alloc_ok n sz sd s = Ok tt s' ->
  self s' <> self s ->
  0 < nDimension (self s') ->
  (0 < wrap64 (extent (self s')))%Z ->
  exists l st,
    storage (self s') = Some l /\ heap s' !! l = Some st /\
    (wrap64 (extent (self s')) <= THCStorage.size st)%Z.
Proof.
  intros W Hrun Hchg Hdim Hext.
  pose proof (geometry_nDimension n sz sd (self s)) as Hn.
  destruct (resizeNd_cases alloc_ok n sz sd s W)
    as [[_ H] | [(_ & _ & H) | (_ & _ & H)]]; rewrite Hrun in H.
  - injection H as H; subst s'. contradiction.
  - injection H as H; subst s'. simpl in Hdim. lia.
  - unfold storage_request in H.
    set (t' := resizeNd_geometry n sz sd (self s)) in *.
    destruct (Z.ltb_spec 0 (wrap64 (extent t'))) as [Hp|Hp].
    + destruct (storage t') as [l|] eqn:Hst; [|discriminate].
      destruct (heap s !! l) as [st|] eqn:Hl; [|discriminate].
      destruct (Z.ltb_spec (THCStorage.size st) (wrap64 (extent t'))) as [Hlt|Hge].
      * destruct (alloc_ok _); [|discriminate]. injection H as H; subst s'. simpl.
        exists l. eexists. split; [assumption|].
        rewrite lookup_insert_eq. split; [reflexivity|]. simpl. lia.
      * injection H as H; subst s'. simpl. exists l, st. repeat split; assumption.
    + injection H as H; subst s'. simpl in Hext. lia.
Qed.

Lemma resizeNd_fits_storage_witness :
  exists l st,
    storage matrix_view = Some l /\
    one_storage 12 1 !! l = Some st /\
    (wrap64 (extent matrix_view) <= THCStorage.size st)%Z.
Proof.
  apply (resizeNd_fits_storage always 2 [4; 3]%Z None
           (mkState (one_storage 0 1) (view_on 0))
           (mkState (one_storage 12 1) matrix_view)).
  - split; simpl; lia.
  - vm_compute. reflexivity.
  - simpl. discriminate.
  - simpl. lia.
  - vm_compute. reflexivity.
Defined.

(** ** X3: the default strides are row-major *)

Lemma row_major_lookup l : forall j,
  j < length l -> row_major l !! j = Some (Zprod (drop (S j) l)).
Proof.
  induction l as [|x l IH]; intros j Hj; simpl in *; [lia|].
  destruct j as [|j]; simpl; [rewrite drop_0; reflexivity|].
  apply IH. lia.
Qed.

Lemma length_row_major l : length (row_major l) = length l.
Proof. induction l as [|x l IH]; simpl; [reflexivity | rewrite IH; reflexivity]. Qed.

Lemma Zprod_drop_sizes t j :
  wf t -> j < nDimension t ->
  Zprod (drop j (sizes t)) = (idx (size t) j * Zprod (drop (S j) (sizes t)))%Z.
Proof.
  intros W Hj.
  rewrite (drop_S (sizes t) (idx (size t) j) j); [reflexivity|].
  rewrite <- idx_sizes by assumption. apply lookup_idx.
  rewrite length_sizes; assumption.
Qed.

Lemma default_strides_suffix t :
  wf t ->
  (forall j, j < nDimension t -> idx (stride t) j = default_stride t j) ->
  forall m j, j + m + 1 = nDimension t ->
    idx (stride t) j = wrap64 (Zprod (drop (S j) (sizes t))).
Proof.
  intros W Hdef. induction m as [|m IH]; intros j Hj.
  - rewrite Hdef by lia. unfold default_stride.
    replace (j =? nDimension t - 1) with true by (symmetry; apply Nat.eqb_eq; lia).
    rewrite drop_ge by (rewrite length_sizes by assumption; lia). reflexivity.
  - rewrite Hdef by lia. unfold default_stride.
    replace (j =? nDimension t - 1) with false by (symmetry; apply Nat.eqb_neq; lia).
    replace (j + 1) with (S j) by lia.
    rewrite (IH (S j)) by lia. rewrite wrap64_mul_r.
    rewrite (Zprod_drop_sizes t (S j)) by (try assumption; lia). reflexivity.
Qed.

Lemma default_strides_row_major t :
  wf t ->
  (forall j, j < nDimension t -> idx (stride t) j = default_stride t j) ->
  strides t = wrap64 <$> row_major (sizes t).
Proof.
  intros W Hdef. apply list_eq. intros j.
  destruct (decide (j < nDimension t)) as [Hj|Hj].
  - rewrite list_lookup_fmap, row_major_lookup
      by (rewrite length_sizes by assumption; lia).
    simpl. rewrite <- (default_strides_suffix t W Hdef (nDimension t - 1 - j) j) by lia.
    rewrite <- idx_strides by assumption. apply lookup_idx.
    rewrite length_strides; assumption.
  - rewrite !lookup_ge_None_2; [reflexivity | |].
    + rewrite length_fmap, length_row_major, length_sizes by assumption. lia.
    + rewrite length_strides by assumption. lia.
Qed.

(** X3: when [resizeNd] is given no strides and the stored sizes differ
    from the request, the strides it leaves are the row-major ones of the
    new sizes: each is the 64-bit product of the sizes of the later
    dimensions, 1 for the last. *)
Theorem resizeNd_strides_row_major alloc_ok n sz s :
  wf (self s) ->
  sizes (self s) <> take (leading_positive (take n sz)) sz ->
  let t' := self (final (THCTensor_resizeNd alloc_ok n sz None s)) in
  strides t' = wrap64 <$> row_major (take (leading_positive (take n sz)) sz).
Proof.
  intros W Hne. cbv zeta. rewrite resizeNd_self.
  assert (Hnoop : is_noop n sz None (self s) = false).
  { destruct (is_noop n sz None (self s)) eqn:E; [|reflexivity].
    exfalso. apply Hne. apply (noop_sizes n sz None); assumption. }
  destruct (geometry_written n sz None (self s) W Hnoop) as [W' Hw].
  change (leading_positive (take n sz)) with (new_dimension n sz).
  rewrite <- (geometry_sizes n sz None (self s) W).
  apply default_strides_row_major; [assumption|].
  intros j Hj. rewrite geometry_nDimension in Hj. apply Hw. assumption.
Qed.

Lemma resizeNd_strides_row_major_witness :
  strides (self (final (THCTensor_resizeNd always 3 [2; 3; 4]%Z None
                          (mkState (one_storage 0 1) (view_on 0)))))
  = [12; 4; 1]%Z.
Proof.
  apply (resizeNd_strides_row_major always 3 [2; 3; 4]%Z
           (mkState (one_storage 0 1) (view_on 0))).
  - split; simpl; lia.
  - vm_compute. discriminate.
Defined.

(** ** X4: THCTensor_resize *)

Lemma new_dimension_all_positive sz :
  Forall (fun x => 0 < x)%Z sz -> new_dimension (length sz) sz = length sz.
Proof.
  intros P. unfold new_dimension. rewrite take_ge by lia.
  apply leading_positive_all. assumption.
Qed.

(** X4: [THCTensor_resize] rejects a NULL size storage (argument 2) and a
    stride storage whose length differs from that of the sizes (argument
    3) before anything is modified; given positive sizes and as many
    non-negative strides, it leaves a tensor with exactly these sizes and
    strides, whatever the outcome of the storage request. *)
Theorem resize_checks_then_stores alloc_ok s :
  wf (self s) ->
  (forall sd, THCTensor_resize alloc_ok None sd s = Err (ArgError 2) s) /\
  (forall sz sd, length sd <> length sz ->
     THCTensor_resize alloc_ok (Some sz) (Some sd) s = Err (ArgError 3) s) /\
  (forall sz sd,
     length sd = length sz ->
     Forall (fun x => 0 < x)%Z sz -> Forall (fun x => 0 <= x)%Z sd ->
     let t' := self (final (THCTensor_resize alloc_ok (Some sz) (Some sd) s)) in
     nDimension t' = length sz /\ sizes t' = sz /\ strides t' = sd).
Proof.
  intros W. split; [reflexivity|]. split.
  - intros sz sd Hne. unfold THCTensor_resize. run.
    replace (length sd =? length sz) with false
      by (symmetry; apply Nat.eqb_neq; assumption).
    reflexivity.
  - intros sz sd Hlen Ppos Pnn. cbv zeta.
    assert (Hrun : THCTensor_resize alloc_ok (Some sz) (Some sd) s
                   = THCTensor_resizeNd alloc_ok (length sz) sz (Some sd) s).
    { unfold THCTensor_resize. run. rewrite Hlen, Nat.eqb_refl. reflexivity. }
    rewrite Hrun, resizeNd_self.
    pose proof (geometry_nDimension (length sz) sz (Some sd) (self s)) as Hn.
    pose proof (geometry_sizes (length sz) sz (Some sd) (self s) W) as Hs.
    destruct (geometry_agrees (length sz) sz (Some sd) (self s) W) as [[W1 W2] Hag].
    rewrite (new_dimension_all_positive sz Ppos) in *.
    set (t' := resizeNd_geometry (length sz) sz (Some sd) (self s)) in *.
    split; [assumption|]. split; [rewrite Hs; apply take_ge; lia|].
    unfold strides. rewrite Hn.
    transitivity (take (length sz) sd); [|apply take_ge; lia].
    apply take_idx_eq; [lia | lia |].
    intros d Hd. destruct (Hag d Hd) as [_ E]. unfold explicit_stride in E.
    assert (Hge : (0 <= idx sd d)%Z).
    { apply (Forall_lookup_1 _ _ d _ Pnn). apply lookup_idx. lia. }
    apply Z.leb_le in Hge. rewrite Hge in E. symmetry. exact E.
Qed.

Lemma resize_checks_then_stores_witness :
  THCTensor_resize always (Some [4; 3]%Z) (Some [1]%Z)
    (mkState (one_storage 0 1) (view_on 0))
  = Err (ArgError 3) (mkState (one_storage 0 1) (view_on 0)).
Proof.
  destruct (resize_checks_then_stores always (mkState (one_storage 0 1) (view_on 0)))
    as (_ & H & _).
  - split; simpl; lia.
  - apply H. simpl. lia.
Defined.

(** ** X5: reading the geometry back *)

(** X5: after [resizeNd], whatever its outcome, [THCTensor_size] returns
    the requested size for every dimension below the new dimensionality,
    [THCTensor_stride] returns the requested stride where one was given
    and is not negative, and both raise the argument error, leaving the
    state as it is, for a negative dimension and for one at or beyond the
    new dimensionality. *)
Theorem size_stride_after_resizeNd alloc_ok n sz sd s :
  wf (self s) ->
  let s1 := final (THCTensor_resizeNd alloc_ok n sz sd s) in
  let n' := leading_positive (take n sz) in
  forall dim,
    ((0 <= dim < Z.of_nat n')%Z ->
       THCTensor_size dim s1 = Ok (idx sz (Z.to_nat dim)) s1 /\
       (forall v, explicit_stride sd (Z.to_nat dim) = Some v ->
          THCTensor_stride dim s1 = Ok v s1)) /\
    (~ (0 <= dim < Z.of_nat n')%Z ->
       THCTensor_size dim s1 = Err (ArgError 2) s1 /\
       THCTensor_stride dim s1 = Err (ArgError 2) s1).
Proof.
  intros W. cbv zeta. intros dim.
  pose proof (resizeNd_self alloc_ok n sz sd s) as Hself.
  pose proof (geometry_nDimension n sz sd (self s)) as Hn.
  destruct (geometry_agrees n sz sd (self s) W) as [_ Hag].
  rewrite <- Hself in Hn, Hag.
  set (s1 := final (THCTensor_resizeNd alloc_ok n sz sd s)) in *.
  change (leading_positive (take n sz)) with (new_dimension n sz).
  unfold THCTensor_size, THCTensor_stride. run. rewrite Hn.
  split.
  - intros [H0 H1].
    replace (0 <=? dim)%Z with true by (symmetry; apply Z.leb_le; lia).
    replace (dim <? Z.of_nat (new_dimension n sz))%Z with true
      by (symmetry; apply Z.ltb_lt; lia).
    simpl. destruct (Hag (Z.to_nat dim)) as [E1 E2]; [lia|].
    split; [rewrite E1; reflexivity|].
    intros v Hv. rewrite Hv in E2. rewrite E2. reflexivity.
  - intros Hout.
    destruct (Z.leb_spec 0 dim) as [H0|H0]; simpl; [|split; reflexivity].
    replace (dim <? Z.of_nat (new_dimension n sz))%Z with false
      by (symmetry; apply Z.ltb_ge; lia).
    split; reflexivity.
Qed.

Lemma size_stride_after_resizeNd_witness :
  THCTensor_size 1
    (final (THCTensor_resizeNd always 3 [5; 0; 2]%Z None
              (mkState (one_storage 0 1) (view_on 0))))
  = Err (ArgError 2)
      (final (THCTensor_resizeNd always 3 [5; 0; 2]%Z None
                (mkState (one_storage 0 1) (view_on 0)))).
Proof.
  destruct (size_stride_after_resizeNd always 3 [5; 0; 2]%Z None
              (mkState (one_storage 0 1) (view_on 0))) with (dim := 1%Z)
    as [_ H].
  - split; simpl; lia.
  - apply H. simpl. lia.
Defined.

(** ** X6: resizing to nothing *)

(** X6: when the first requested size is not positive, or no size is
    requested at all, [resizeNd] always returns: the tensor ends with no
    dimension and an element count of 0, its arrays, storage pointer and
    offset are kept, and the heap of storages is not touched, so no
    capacity is given back. *)
Theorem resizeNd_to_empty alloc_ok n sz sd s :
  leading_positive (take n sz) = 0 ->
  THCTensor_resizeNd alloc_ok n sz sd s
  = Ok tt (mkState (heap s) (set_nDimension (self s) 0))
  /\ THCTensor_nElement (set_nDimension (self s) 0) = 0%Z.
Proof.
  intros Hz. split; [|reflexivity].
  destruct (is_noop n sz sd (self s)) eqn:Hnoop.
  - rewrite resizeNd_noop_run by assumption.
    apply noop_agrees in Hnoop as [Hn _].
    unfold new_dimension in Hn. rewrite Hz in Hn.
    destruct s as [h [a b k p o]]. simpl in *. subst k. reflexivity.
  - apply resizeNd_run_empty; assumption.
Qed.

Lemma resizeNd_to_empty_witness :
  THCTensor_resizeNd never 2 [0; 7]%Z None (mkState ∅ matrix_view)
  = Ok tt (mkState ∅ (set_nDimension matrix_view 0)).
Proof.
  apply (resizeNd_to_empty never 2 [0; 7]%Z None (mkState ∅ matrix_view)).
  reflexivity.
Defined.

(** ** Squeezing and unsqueezing in place *)

Lemma squeeze1d_in_place alloc_ok dimension s :
  THCTensor_squeeze1d alloc_ok None dimension s =
  if negb (dimension <? nDimension (self s)) then Err (ArgError 3) s
  else if (idx (size (self s)) dimension =? 1)%Z && (1 <? nDimension (self s))
       then Ok tt (mkState (heap s) (squeeze_tail dimension (self s)))
       else Ok tt s.
Proof. rewrite squeeze1d_run. reflexivity. Qed.

Lemma unsqueeze1d_in_place alloc_ok dimension s :
  THCTensor_unsqueeze1d alloc_ok None dimension s =
  if negb (dimension <=? nDimension (self s)) then Err (ArgError 3) s
  else if negb (0 <? nDimension (self s)) then Err (ArgError 3) s
  else Ok tt (mkState (heap s) (unsqueeze_tail dimension (self s))).
Proof. rewrite unsqueeze1d_run. reflexivity. Qed.

Lemma delete_reinserted (l : list Z) i x :
  i <= length l -> delete i (take i l ++ x :: drop i l) = l.
Proof.
  intros Hi.
  assert (E : length (take i l) = i) by (rewrite length_take; lia).
  remember (take i l) as l1 eqn:E1. remember (drop i l) as l2 eqn:E2.
  rewrite <- E, delete_middle. subst l1 l2. apply take_drop.
Qed.

Lemma lookup_reinserted (l : list Z) i x :
  i <= length l -> (take i l ++ x :: drop i l) !! i = Some x.
Proof.
  intros Hi.
  assert (E : length (take i l) = i) by (rewrite length_take; lia).
  apply list_lookup_middle. symmetry. assumption.
Qed.

(** ** X7: unsqueeze, then squeeze *)

(** X7: unsqueezing a tensor with at least one dimension at any position
    up to its dimensionality and then squeezing the same position, both in
    place, returns and gives back the dimensionality, the size array and
    the stride array exactly, the storage pointer, the offset and the heap
    being untouched. *)
Theorem unsqueeze_squeeze alloc_ok dimension s :
  wf (self s) ->
  dimension <= nDimension (self s) ->
  0 < nDimension (self s) ->
  let s1 := final (THCTensor_unsqueeze1d alloc_ok None dimension s) in
  let r2 := THCTensor_squeeze1d alloc_ok None dimension s1 in
  returns r2 = true /\
  heap (final r2) = heap s /\
  nDimension (self (final r2)) = nDimension (self s) /\
  sizes (self (final r2)) = sizes (self s) /\
  strides (self (final r2)) = strides (self s) /\
  storage (self (final r2)) = storage (self s) /\
  storageOffset (self (final r2)) = storageOffset (self s).
Proof.
  intros W Hd Hn. cbv zeta.
  rewrite unsqueeze1d_in_place.
  replace (dimension <=? nDimension (self s)) with true
    by (symmetry; apply Nat.leb_le; assumption).
  replace (0 <? nDimension (self s)) with true
    by (symmetry; apply Nat.ltb_lt; assumption).
  cbn [negb final].
  destruct (unsqueeze_tail_spec dimension (self s) W Hd)
    as (W1 & N1 & St1 & Off1 & S1 & T1).
  set (t1 := unsqueeze_tail dimension (self s)) in *.
  rewrite squeeze1d_in_place. cbn [self heap].
  pose proof (length_sizes _ W) as LS. pose proof (length_strides _ W) as LT.
  assert (Hone : idx (size t1) dimension = 1%Z).
  { rewrite <- idx_sizes by lia. rewrite S1. apply idx_lookup.
    apply lookup_reinserted. lia. }
  replace (dimension <? nDimension t1) with true by (symmetry; apply Nat.ltb_lt; lia).
  replace (1 <? nDimension t1) with true by (symmetry; apply Nat.ltb_lt; lia).
  rewrite Hone. cbn [negb andb Z.eqb Pos.eqb final returns self heap].
  destruct (squeeze_tail_spec dimension t1 W1) as (_ & N2 & St2 & Off2 & S2 & T2); [lia|].
  set (t2 := squeeze_tail dimension t1) in *.
  repeat split; try congruence; try lia.
  - rewrite S2, S1. apply delete_reinserted. lia.
  - rewrite T2, T1. apply delete_reinserted. lia.
Qed.

Lemma unsqueeze_squeeze_witness :
  strides (self (final (THCTensor_squeeze1d always None 1
             (final (THCTensor_unsqueeze1d always None 1
                       (mkState (one_storage 12 1) matrix_view))))))
  = strides matrix_view.
Proof.
  destruct (unsqueeze_squeeze always 1 (mkState (one_storage 12 1) matrix_view))
    as (_ & _ & _ & _ & H & _).
  - split; simpl; lia.
  - simpl; lia.
  - simpl; lia.
  - exact H.
Defined.

(** ** X8: the element count under squeeze and unsqueeze *)

Lemma Zprod_app l1 l2 : Zprod (l1 ++ l2) = (Zprod l1 * Zprod l2)%Z.
Proof.
  induction l1 as [|x l1 IH]; simpl; [lia|]. rewrite IH. lia.
Qed.

Lemma Zprod_delete_one l : forall i,
  l !! i = Some 1%Z -> Zprod (delete i l) = Zprod l.
Proof.
  induction l as [|x l IH]; intros [|i] H; simpl in *; try discriminate.
  - injection H as ->. lia.
  - rewrite IH by assumption. reflexivity.
Qed.

Lemma Zprod_insert_one (l : list Z) i :
  Zprod (take i l ++ 1%Z :: drop i l) = Zprod l.
Proof.
  rewrite Zprod_app. simpl. rewrite <- (take_drop i l) at 3.
  rewrite Zprod_app. lia.
Qed.

(** X8: squeezing and unsqueezing in place, when their argument check
    passes, leave the element count of the tensor as it was. *)
Theorem nElement_squeeze_unsqueeze alloc_ok dimension s :
  wf (self s) ->
  (dimension < nDimension (self s) ->
   THCTensor_nElement (self (final (THCTensor_squeeze1d alloc_ok None dimension s)))
   = THCTensor_nElement (self s)) /\
  (dimension <= nDimension (self s) -> 0 < nDimension (self s) ->
   THCTensor_nElement (self (final (THCTensor_unsqueeze1d alloc_ok None dimension s)))
   = THCTensor_nElement (self s)).
Proof.
  intros W. split.
  - intros Hd. rewrite squeeze1d_in_place.
    replace (dimension <? nDimension (self s)) with true
      by (symmetry; apply Nat.ltb_lt; assumption).
    cbn [negb].
    destruct (Z.eqb_spec (idx (size (self s)) dimension) 1) as [E1|E1];
      destruct (Nat.ltb_spec 1 (nDimension (self s))) as [E2|E2];
      cbn [andb final self]; try reflexivity.
    destruct (squeeze_tail_spec dimension (self s) W Hd) as (W' & N' & _ & _ & S' & _).
    rewrite !nElement_product by (try assumption; lia).
    rewrite S', Zprod_delete_one; [reflexivity|].
    rewrite <- E1, <- idx_sizes by assumption. apply lookup_idx.
    rewrite length_sizes; assumption.
  - intros Hd Hn. rewrite unsqueeze1d_in_place.
    replace (dimension <=? nDimension (self s)) with true
      by (symmetry; apply Nat.leb_le; assumption).
    replace (0 <? nDimension (self s)) with true
      by (symmetry; apply Nat.ltb_lt; assumption).
    cbn [negb final self].
    destruct (unsqueeze_tail_spec dimension (self s) W Hd) as (W' & N' & _ & _ & S' & _).
    rewrite !nElement_product by (try assumption; lia).
    rewrite S', Zprod_insert_one. reflexivity.
Qed.

Lemma nElement_squeeze_unsqueeze_witness :
  THCTensor_nElement
    (self (final (THCTensor_unsqueeze1d always None 2
                    (mkState (one_storage 12 1) matrix_view))))
  = THCTensor_nElement matrix_view.
Proof.
  destruct (nElement_squeeze_unsqueeze always 2 (mkState (one_storage 12 1) matrix_view))
    as [_ H].
  - split; simpl; lia.
  - apply H; simpl; lia.
Defined.

(** ** X9: contiguity under squeeze and unsqueeze *)

Lemma length_dims t : wf t -> length (dims t) = nDimension t.
Proof.
  intros W. unfold dims.
  rewrite length_zip_with, length_sizes, length_strides by assumption. lia.
Qed.

Lemma dims_lookup t d :
  wf t -> d < nDimension t ->
  dims t !! d = Some (idx (size t) d, idx (stride t) d).
Proof.
  intros W Hd. unfold dims. rewrite lookup_zip_with.
  rewrite (lookup_idx (sizes t)) by (rewrite length_sizes; assumption).
  rewrite (lookup_idx (strides t)) by (rewrite length_strides; assumption).
  simpl. rewrite idx_sizes, idx_strides by assumption. reflexivity.
Qed.

Lemma foldr_contiguous_none l : foldr contiguous_step None l = None.
Proof. induction l as [|p l IH]; simpl; [reflexivity | rewrite IH; reflexivity]. Qed.

Lemma isContiguous_loop_foldr t :
  wf t ->
  forall k z, k <= nDimension t ->
    isContiguous_loop t k z
    = match foldr contiguous_step (Some z) (take k (dims t)) with
      | Some _ => true
      | None => false
      end.
Proof.
  intros W. induction k as [|d IH]; intros z Hk; [reflexivity|].
  rewrite (take_S_r _ _ _ (dims_lookup t d W Hk)), foldr_snoc.
  cbn [isContiguous_loop contiguous_step fst snd].
  destruct (negb (idx (size t) d =? 1)%Z).
  - destruct (idx (stride t) d =? z)%Z.
    + apply IH. lia.
    + rewrite foldr_contiguous_none. reflexivity.
  - apply IH. lia.
Qed.

Lemma isContiguous_dims t :
  wf t ->
  THCTensor_isContiguous t
  = match foldr contiguous_step (Some 1%Z) (dims t) with
    | Some _ => true
    | None => false
    end.
Proof.
  intros W. unfold THCTensor_isContiguous.
  rewrite isContiguous_loop_foldr by (try assumption; lia).
  rewrite take_ge by (rewrite length_dims by assumption; lia). reflexivity.
Qed.

Lemma contiguous_step_unit v acc : contiguous_step (1%Z, v) acc = acc.
Proof. destruct acc; reflexivity. Qed.

Lemma foldr_contiguous_delete a l : forall i v,
  l !! i = Some (1%Z, v) ->
  foldr contiguous_step a (delete i l) = foldr contiguous_step a l.
Proof.
  induction l as [|p l IH]; intros [|i] v H; simpl in *; try discriminate.
  - injection H as ->. rewrite contiguous_step_unit. reflexivity.
  - rewrite (IH i v H). reflexivity.
Qed.

Lemma zip_delete (a b : list Z) : forall i,
  zip (delete i a) (delete i b) = delete i (zip a b).
Proof.
  revert b. induction a as [|x a IH]; intros b i.
  - destruct i; reflexivity.
  - destruct b as [|y b].
    + destruct i; simpl; rewrite ?zip_with_nil_r; reflexivity.
    + destruct i as [|i]; simpl; [reflexivity|]. f_equal. apply IH.
Qed.

Lemma zip_insert_unit (a b : list Z) i v :
  i <= length a -> i <= length b ->
  zip (take i a ++ 1%Z :: drop i a) (take i b ++ v :: drop i b)
  = take i (zip a b) ++ (1%Z, v) :: drop i (zip a b).
Proof.
  intros Ha Hb.
  rewrite zip_with_app by (rewrite !length_take; lia).
  simpl. rewrite zip_with_take, zip_with_drop. reflexivity.
Qed.

(** X9: squeezing and unsqueezing in place, when their argument check
    passes, do not change whether the tensor is contiguous. *)
Theorem isContiguous_squeeze_unsqueeze alloc_ok dimension s :
  wf (self s) ->
  (dimension < nDimension (self s) ->
   THCTensor_isContiguous (self (final (THCTensor_squeeze1d alloc_ok None dimension s)))
   = THCTensor_isContiguous (self s)) /\
  (dimension <= nDimension (self s) -> 0 < nDimension (self s) ->
   THCTensor_isContiguous (self (final (THCTensor_unsqueeze1d alloc_ok None dimension s)))
   = THCTensor_isContiguous (self s)).
Proof.
  intros W. split.
  - intros Hd. rewrite squeeze1d_in_place.
    replace (dimension <? nDimension (self s)) with true
      by (symmetry; apply Nat.ltb_lt; assumption).
    cbn [negb].
    destruct (Z.eqb_spec (idx (size (self s)) dimension) 1) as [E1|E1];
      destruct (Nat.ltb_spec 1 (nDimension (self s))) as [E2|E2];
      cbn [andb final self]; try reflexivity.
    destruct (squeeze_tail_spec dimension (self s) W Hd) as (W' & _ & _ & _ & S' & T').
    rewrite !isContiguous_dims by assumption.
    unfold dims at 1. rewrite S', T', zip_delete. fold (dims (self s)).
    rewrite (foldr_contiguous_delete _ _ _ (idx (stride (self s)) dimension));
      [reflexivity|].
    rewrite dims_lookup by assumption. rewrite E1. reflexivity.
  - intros Hd Hn. rewrite unsqueeze1d_in_place.
    replace (dimension <=? nDimension (self s)) with true
      by (symmetry; apply Nat.leb_le; assumption).
    replace (0 <? nDimension (self s)) with true
      by (symmetry; apply Nat.ltb_lt; assumption).
    cbn [negb final self].
    destruct (unsqueeze_tail_spec dimension (self s) W Hd) as (W' & _ & _ & _ & S' & T').
    rewrite !isContiguous_dims by assumption.
    unfold dims at 1. rewrite S', T'.
    rewrite zip_insert_unit
      by (rewrite ?length_sizes, ?length_strides by assumption; lia).
    fold (dims (self s)).
    rewrite foldr_app. simpl. rewrite contiguous_step_unit, <- foldr_app, take_drop.
    reflexivity.
Qed.

Lemma isContiguous_squeeze_unsqueeze_witness :
  THCTensor_isContiguous
    (self (final (THCTensor_unsqueeze1d always None 0
                    (mkState (one_storage 12 1) matrix_view))))
  = THCTensor_isContiguous matrix_view.
Proof.
  destruct (isContiguous_squeeze_unsqueeze always 0
              (mkState (one_storage 12 1) matrix_view)) as [_ H].
  - split; simpl; lia.
  - apply H; simpl; lia.
Defined.

(** ** X10: what contiguity means *)

Lemma isContiguous_loop_products t :
  wf t ->
  forall k, k <= nDimension t ->
    isContiguous_loop t k (wrap64 (Zprod (drop k (sizes t)))) = true <->
    forall d, d < k -> idx (size t) d <> 1%Z ->
      idx (stride t) d = wrap64 (Zprod (drop (S d) (sizes t))).
Proof.
  intros W. induction k as [|d IH]; intros Hk.
  - simpl. split; [intros _ d Hd; lia | reflexivity].
  - cbn [isContiguous_loop].
    pose proof (Zprod_drop_sizes t d W Hk) as Hprod.
    destruct (Z.eqb_spec (idx (size t) d) 1) as [E1|E1]; cbn [negb].
    + rewrite E1, Z.mul_1_l in Hprod. rewrite <- Hprod, IH by lia.
      split; intros H d' Hd' Hs.
      * destruct (decide (d' = d)) as [->|Hne]; [contradiction | apply H; [lia | assumption]].
      * apply H; [lia | assumption].
    + destruct (Z.eqb_spec (idx (stride t) d) (wrap64 (Zprod (drop (S d) (sizes t)))))
        as [E2|E2].
      * rewrite wrap64_mul_l, (Z.mul_comm _ (idx (size t) d)), <- Hprod, IH by lia.
        split; intros H d' Hd' Hs.
        -- destruct (decide (d' = d)) as [->|Hne]; [assumption | apply H; [lia | assumption]].
        -- apply H; [lia | assumption].
      * split; [discriminate|]. intros H. exfalso. apply E2. apply H; [lia | assumption].
Qed.

(** X10: a tensor is contiguous exactly when every dimension whose size
    is not 1 has as its stride the 64-bit product of the sizes of the
    later dimensions; the strides of the dimensions of size 1 are free. *)
Theorem isContiguous_iff t :
  wf t ->
  THCTensor_isContiguous t = true <->
  forall d, d < nDimension t -> idx (size t) d <> 1%Z ->
    idx (stride t) d = wrap64 (Zprod (drop (S d) (sizes t))).
Proof.
  intros W. unfold THCTensor_isContiguous.
  rewrite <- (isContiguous_loop_products t W (nDimension t)) by lia.
  rewrite drop_ge by (rewrite length_sizes by assumption; lia). reflexivity.
Qed.

Lemma isContiguous_iff_witness :
  THCTensor_isContiguous (mkTensor [4; 1; 3]%Z [3; 7; 1]%Z 3 (Some 0) 0) = true.
Proof.
  apply isContiguous_iff.
  - split; simpl; lia.
  - intros [|[|[|d]]] Hd Hs; simpl in *; try reflexivity; try lia.
    exfalso. apply Hs. reflexivity.
Defined.

(** ** Rebinding, in full *)

Lemma rebind_phase_live alloc_ok l off s :
  is_Some (heap s !! l) ->
  (forall l0, storage (self s) = Some l0 -> is_Some (heap s !! l0)) ->
  rebind_phase alloc_ok (Some l) off s =
  let h1 := rebound_heap (heap s) (storage (self s)) l in
  if (off <? 0)%Z then Err FatalError (mkState h1 (set_storage (self s) (Some l)))
  else Ok tt (mkState h1 (set_storageOffset (set_storage (self s) (Some l)) off)).
Proof.
  intros [st Hl] Hvalid.
  unfold rebind_phase, rebound_heap, acquire, release. run.
  destruct (storage (self s)) as [l0|] eqn:E; simpl.
  - destruct (Nat.eqb_spec l0 l) as [->|Hne]; simpl.
    + assert (Eq : set_storage (self s) (Some l) = self s)
        by (destruct s as [h [a b k p o]]; simpl in *; subst p; reflexivity).
      rewrite Eq. destruct (off <? 0)%Z; simpl; [|reflexivity].
      destruct s; reflexivity.
    + destruct (Hvalid l0 eq_refl) as [st0 Hl0]. rewrite Hl0. simpl.
      destruct (THCStorage.refcount st0 - 1 =? 0)%Z; simpl.
      * rewrite lookup_delete_ne by assumption. rewrite Hl. simpl.
        destruct (off <? 0)%Z; reflexivity.
      * rewrite lookup_insert_ne by assumption. rewrite Hl. simpl.
        destruct (off <? 0)%Z; reflexivity.
  - rewrite Hl. simpl. destruct (off <? 0)%Z; reflexivity.
Qed.

Lemma release_lookup h l0 st0 l :
  h !! l0 = Some st0 ->
  release h l0 !! l
  = if decide (l = l0)
    then (if (THCStorage.refcount st0 - 1 =? 0)%Z then None
          else Some (THCStorage.mk (THCStorage.size st0) (THCStorage.scalar_type st0)
                                   (THCStorage.refcount st0 - 1)))
    else h !! l.
Proof.
  intros H0. unfold release. rewrite H0.
  destruct (THCStorage.refcount st0 - 1 =? 0)%Z; destruct (decide (l = l0)) as [->|Hne].
  - apply lookup_delete_eq.
  - apply lookup_delete_ne. congruence.
  - apply lookup_insert_eq.
  - apply lookup_insert_ne. congruence.
Qed.

Lemma acquire_lookup h l st l' :
  h !! l = Some st ->
  acquire h l !! l'
  = if decide (l' = l)
    then Some (THCStorage.mk (THCStorage.size st) (THCStorage.scalar_type st)
                             (THCStorage.refcount st + 1))
    else h !! l'.
Proof.
  intros H0. unfold acquire. rewrite H0.
  destruct (decide (l' = l)) as [->|Hne].
  - apply lookup_insert_eq.
  - apply lookup_insert_ne. congruence.
Qed.

(** ** X11: a negative offset *)

(** X11: [setStorageNd] with a live storage and a negative offset raises
    the fatal error with the sizes, the strides, the dimensionality and
    the offset of the tensor untouched, but with the tensor already bound
    to the new storage and the reference counts already moved. *)
Theorem setStorageNd_negative_offset alloc_ok l off n sz sd s :
  (off < 0)%Z ->
  is_Some (heap s !! l) ->
  (forall l0, storage (self s) = Some l0 -> is_Some (heap s !! l0)) ->
  exists s',
    THCTensor_setStorageNd alloc_ok (Some l) off n sz sd s = Err FatalError s' /\
    size (self s') = size (self s) /\
    stride (self s') = stride (self s) /\
    nDimension (self s') = nDimension (self s) /\
    storageOffset (self s') = storageOffset (self s) /\
    storage (self s') = Some l /\
    heap s' = rebound_heap (heap s) (storage (self s)) l.
Proof.
  intros Hoff Hl Hvalid.
  rewrite setStorageNd_run, (rebind_phase_live alloc_ok l off s Hl Hvalid).
  cbv zeta. replace (off <? 0)%Z with true by (symmetry; apply Z.ltb_lt; assumption).
  eexists. split; [reflexivity|]. simpl. repeat split.
Qed.

Lemma setStorageNd_negative_offset_witness :
  exists s',
    THCTensor_setStorageNd always (Some 0) (-1) 2 [4; 3]%Z None
      (mkState (one_storage 0 1) fresh_view) = Err FatalError s' /\
    storage (self s') = Some 0.
Proof.
  destruct (setStorageNd_negative_offset always 0 (-1) 2 [4; 3]%Z None
              (mkState (one_storage 0 1) fresh_view))
    as (s' & H1 & _ & _ & _ & _ & H2 & _).
  - lia.
  - vm_compute. eauto.
  - intros l0 H. discriminate.
  - exists s'. split; [exact H1 | exact H2].
Defined.

(** ** X12: rebinding moves one reference *)

(** X12: when [setStorageNd] rebinds a tensor from its live storage to
    another live storage, then, whether the call returns or fails on the
    grow request, the new storage has one reference more and has not
    shrunk, the old storage has one reference less or is freed when that
    was its last one, and every other storage is as before. *)
Theorem setStorageNd_moves_one_reference alloc_ok l l0 st st0 off n sz sd s :
  wf (self s) ->
  storage (self s) = Some l0 ->
  l0 <> l ->
  heap s !! l = Some st ->
  heap s !! l0 = Some st0 ->
  (0 <= off)%Z ->
  let h' := heap (final (THCTensor_setStorageNd alloc_ok (Some l) off n sz sd s)) in
  (exists st', h' !! l = Some st' /\
     THCStorage.refcount st' = (THCStorage.refcount st + 1)%Z /\
     (THCStorage.size st <= THCStorage.size st')%Z) /\
  h' !! l0
  = (if (THCStorage.refcount st0 - 1 =? 0)%Z then None
     else Some (THCStorage.mk (THCStorage.size st0) (THCStorage.scalar_type st0)
                              (THCStorage.refcount st0 - 1))) /\
  (forall l', l' <> l -> l' <> l0 -> h' !! l' = heap s !! l').
Proof.
  intros W Hst Hne Hl Hl0 Hoff. cbv zeta.
  assert (Hvalid : forall l1, storage (self s) = Some l1 -> is_Some (heap s !! l1)).
  { intros l1 H1. rewrite Hst in H1. injection H1 as <-. eauto. }
  rewrite setStorageNd_run,
    (rebind_phase_live alloc_ok l off s (ex_intro _ st Hl) Hvalid).
  cbv zeta. replace (off <? 0)%Z with false by (symmetry; apply Z.ltb_ge; assumption).
  set (h1 := rebound_heap (heap s) (storage (self s)) l).
  set (t0 := set_storageOffset (set_storage (self s) (Some l)) off).
  assert (Hh1 : forall l', h1 !! l'
            = if decide (l' = l)
              then Some (THCStorage.mk (THCStorage.size st) (THCStorage.scalar_type st)
                                       (THCStorage.refcount st + 1))
              else release (heap s) l0 !! l').
  { intros l'. subst h1. unfold rebound_heap. rewrite Hst. simpl.
    replace (l0 =? l) with false by (symmetry; apply Nat.eqb_neq; assumption).
    apply acquire_lookup. rewrite (release_lookup _ _ st0) by assumption.
    destruct (decide (l = l0)); [congruence | assumption]. }
  assert (W0 : wf t0) by exact W.
  destruct (resizeNd_heap alloc_ok n sz sd (mkState h1 t0) W0)
    as [-> | (l1 & st1 & fp & Hs1 & Hl1 & Hlt & _ & ->)]; simpl.
  - repeat split.
    + eexists. rewrite Hh1. destruct (decide (l = l)); [|congruence].
      split; [reflexivity|]. simpl. split; lia.
    + rewrite Hh1. destruct (decide (l0 = l)); [congruence|].
      rewrite (release_lookup _ _ st0) by assumption.
      destruct (decide (l0 = l0)); [reflexivity | congruence].
    + intros l' N1 N2. rewrite Hh1. destruct (decide (l' = l)); [congruence|].
      rewrite (release_lookup _ _ st0) by assumption.
      destruct (decide (l' = l0)); [congruence | reflexivity].
  - simpl in Hs1, Hl1. injection Hs1 as <-.
    pose proof (Hh1 l) as Hll. destruct (decide (l = l)); [|congruence].
    pose proof (eq_trans (eq_sym Hl1) Hll) as Est. injection Est as ->.
    simpl in *. repeat split.
    + eexists. rewrite lookup_insert_eq. split; [reflexivity|]. simpl. split; lia.
    + rewrite lookup_insert_ne by congruence.
      rewrite Hh1. destruct (decide (l0 = l)); [congruence|].
      rewrite (release_lookup _ _ st0) by assumption.
      destruct (decide (l0 = l0)); [reflexivity | congruence].
    + intros l' N1 N2. rewrite lookup_insert_ne by congruence.
      rewrite Hh1. destruct (decide (l' = l)); [congruence|].
      rewrite (release_lookup _ _ st0) by assumption.
      destruct (decide (l' = l0)); [congruence | reflexivity].
Qed.

Lemma setStorageNd_moves_one_reference_witness :
  heap (final (THCTensor_setStorageNd always (Some 1) 0 1 [2]%Z None
                 (mkState two_storages matrix_view))) !! 0 = None.
Proof.
  destruct (setStorageNd_moves_one_reference always 1 0
              (THCStorage.mk 0 Float 1) (THCStorage.mk 12 Float 1) 0 1 [2]%Z None
              (mkState two_storages matrix_view)) as (_ & H & _).
  - split; simpl; lia.
  - reflexivity.
  - lia.
  - vm_compute. reflexivity.
  - vm_compute. reflexivity.
  - lia.
  - exact H.
Defined.

(** ** X13: rebinding with the geometry at hand *)

(** X13: [setStorageNd] called with the sizes and strides the tensor
    already has (the sizes being positive), a live storage and a
    non-negative offset returns with only the storage pointer, the
    offset and the reference counts changed: it makes no grow request, so
    the new storage keeps its capacity whatever the extent of the tensor. *)
Theorem setStorageNd_same_geometry alloc_ok l off s :
  positive_sizes (self s) ->
  is_Some (heap s !! l) ->
  (forall l0, storage (self s) = Some l0 -> is_Some (heap s !! l0)) ->
  (0 <= off)%Z ->
  THCTensor_setStorageNd alloc_ok (Some l) off (nDimension (self s))
    (size (self s)) (Some (stride (self s))) s
  = Ok tt (mkState (rebound_heap (heap s) (storage (self s)) l)
                   (set_storageOffset (set_storage (self s) (Some l)) off)).
Proof.
  intros P Hl Hvalid Hoff.
  rewrite setStorageNd_run, (rebind_phase_live alloc_ok l off s Hl Hvalid).
  cbv zeta. replace (off <? 0)%Z with false by (symmetry; apply Z.ltb_ge; assumption).
  apply resizeNd_noop_run. simpl. apply agrees_noop.
  - simpl. symmetry. apply new_dimension_positive. assumption.
  - intros j Hj. rewrite (new_dimension_positive _ P) in Hj.
    split; [reflexivity|]. unfold explicit_stride. simpl.
    destruct (0 <=? idx (stride (self s)) j)%Z; reflexivity.
Qed.

Lemma setStorageNd_same_geometry_witness :
  THCTensor_setStorageNd always (Some 1) 0 2 [4; 3]%Z (Some [3; 1]%Z)
    (mkState two_storages matrix_view)
  = Ok tt (mkState (rebound_heap two_storages (Some 0) 1)
                   (set_storageOffset (set_storage matrix_view (Some 1)) 0)).
Proof.
  apply (setStorageNd_same_geometry always 1 0 (mkState two_storages matrix_view)).
  - split; [split; simpl; lia|]. unfold sizes; simpl.
    repeat first [apply Forall_nil_2 | apply Forall_cons_2; [lia|]].
  - vm_compute. eauto.
  - intros l0 H. injection H as <-. vm_compute. eauto.
  - lia.
Defined.

(** ** X14: THCTensor_resizeAs *)

Lemma resizeAs_same_spec t src : forall fuel d,
  resizeAs_same t src fuel d = true <->
  forall j, d <= j < d + fuel -> idx (size t) j = idx (size src) j.
Proof.
  induction fuel as [|fuel IH]; intros d; simpl.
  - split; [intros _ j Hj; lia | reflexivity].
  - destruct (Z.eqb_spec (idx (size t) d) (idx (size src) d)) as [E|E]; simpl.
    + rewrite IH. split; intros H j Hj.
      * destruct (decide (j = d)) as [->|Hne]; [assumption | apply H; lia].
      * apply H. lia.
    + split; [discriminate|]. intros H. exfalso. apply E. apply H. lia.
Qed.

Lemma sizes_eq_iff t src :
  wf t -> wf src ->
  sizes t = sizes src <->
  nDimension t = nDimension src /\
  forall j, j < nDimension t -> idx (size t) j = idx (size src) j.
Proof.
  intros W Ws. split.
  - intros E. assert (Hn : nDimension t = nDimension src)
      by (rewrite <- (length_sizes t W), <- (length_sizes src Ws), E; reflexivity).
    split; [assumption|]. intros j Hj.
    rewrite <- idx_sizes, E, idx_sizes by lia. reflexivity.
  - intros [Hn H]. unfold sizes. rewrite <- Hn.
    destruct W as [W1 _]. destruct Ws as [Ws1 _].
    apply take_idx_eq; [lia | lia | assumption].
Qed.

(** X14: [resizeAs] from a tensor with positive sizes leaves [self] with
    the dimensionality and the size array of that tensor, whatever the
    outcome.  When the sizes were already the same the call returns
    without changing anything, strides included; otherwise the strides
    become the row-major ones and [self] is contiguous. *)
Theorem resizeAs_takes_sizes alloc_ok src s :
  wf (self s) ->
  positive_sizes src ->
  let r := THCTensor_resizeAs alloc_ok src s in
  nDimension (self (final r)) = nDimension src /\
  sizes (self (final r)) = sizes src /\
  (sizes (self s) = sizes src -> r = Ok tt s) /\
  (sizes (self s) <> sizes src ->
   strides (self (final r)) = wrap64 <$> row_major (sizes src) /\
   THCTensor_isContiguous (self (final r)) = true).
Proof.
  intros W P. pose proof P as [Ws Ppos]. cbv zeta.
  assert (Hsame : (if nDimension (self s) =? nDimension src
                   then resizeAs_same (self s) src (nDimension (self s)) 0
                   else false) = true <-> sizes (self s) = sizes src).
  { rewrite (sizes_eq_iff _ _ W Ws).
    destruct (Nat.eqb_spec (nDimension (self s)) (nDimension src)) as [E|E].
    - rewrite resizeAs_same_spec. split.
      + intros H. split; [assumption|]. intros j Hj. apply H. lia.
      + intros [_ H] j Hj. apply H. lia.
    - split; [discriminate | tauto]. }
  unfold THCTensor_resizeAs. run.
  destruct (if nDimension (self s) =? nDimension src
            then resizeAs_same (self s) src (nDimension (self s)) 0
            else false) eqn:B; cbn [negb].
  - destruct Hsame as [Hsame _]. specialize (Hsame eq_refl).
    pose proof (proj1 (sizes_eq_iff _ _ W Ws) Hsame) as [Hn _].
    simpl. repeat split; try assumption; try tauto.
  - assert (Hdiff : sizes (self s) <> sizes src).
    { intros E. apply Hsame in E. discriminate. }
    rewrite resizeNd_self.
    pose proof (geometry_nDimension (nDimension src) (size src) None (self s)) as Hn.
    pose proof (geometry_sizes (nDimension src) (size src) None (self s) W) as Hs.
    rewrite (new_dimension_positive src P) in Hn, Hs. fold (sizes src) in Hs.
    assert (Hnoop : is_noop (nDimension src) (size src) None (self s) = false).
    { destruct (is_noop (nDimension src) (size src) None (self s)) eqn:E; [|reflexivity].
      exfalso. apply Hdiff. rewrite (noop_sizes _ _ _ _ W E).
      rewrite (new_dimension_positive src P). reflexivity. }
    destruct (geometry_written _ _ _ _ W Hnoop) as [W' Hw].
    rewrite (new_dimension_positive src P) in Hw.
    set (t' := resizeNd_geometry (nDimension src) (size src) None (self s)) in *.
    assert (Hdef : forall j, j < nDimension t' -> idx (stride t') j = default_stride t' j).
    { intros j Hj. apply Hw. lia. }
    repeat split; try assumption; try tauto.
    + rewrite <- Hs. apply default_strides_row_major; assumption.
    + apply isContiguous_default. assumption.
Qed.

Lemma resizeAs_takes_sizes_witness :
  sizes (self (final (THCTensor_resizeAs always matrix_view
                        (mkState (one_storage 0 1) (view_on 0)))))
  = sizes matrix_view.
Proof.
  destruct (resizeAs_takes_sizes always matrix_view
              (mkState (one_storage 0 1) (view_on 0))) as (_ & H & _).
  - split; simpl; lia.
  - split; [split; simpl; lia|]. unfold sizes; simpl.
    repeat first [apply Forall_nil_2 | apply Forall_cons_2; [lia|]].
  - exact H.
Defined.

(** ** X15, X16: devices *)

Lemma allSameDevice_loop_spec dev d rest :
  allSameDevice_loop dev d rest = true <->
  Forall (fun t => THCTensor_getDevice dev t = d) rest.
Proof.
  induction rest as [|t rest IH]; simpl.
  - split; [constructor | reflexivity].
  - destruct (Z.eqb_spec (THCTensor_getDevice dev t) d) as [E|E]; simpl.
    + rewrite IH. split; [intros H; constructor; assumption|].
      intros H. inversion H; assumption.
    + split; [discriminate|]. intros H. inversion H. contradiction.
Qed.

Lemma allSameDevice_true dev inputs :
  THCTensor_allSameDevice dev inputs = Some true <->
  inputs <> [] /\
  forall a b, a ∈ inputs -> b ∈ inputs ->
    THCTensor_getDevice dev a = THCTensor_getDevice dev b.
Proof.
  destruct inputs as [|t0 rest]; simpl.
  - split; [discriminate | intros [H _]; contradiction].
  - split.
    + intros [= H]. apply allSameDevice_loop_spec in H.
      rewrite Forall_forall in H. split; [discriminate|].
      assert (Hall : forall a, a ∈ t0 :: rest ->
                THCTensor_getDevice dev a = THCTensor_getDevice dev t0).
      { intros a Ha. apply elem_of_cons in Ha as [->|Ha]; [reflexivity | apply H, Ha]. }
      intros a b Ha Hb. rewrite (Hall a Ha), (Hall b Hb). reflexivity.
    + intros [_ H]. f_equal. apply allSameDevice_loop_spec.
      rewrite Forall_forall. intros a Ha. apply H.
      * apply elem_of_cons. right. assumption.
      * apply elem_of_cons. left. reflexivity.
Qed.

(** X16: [allSameDevice] fails its assertion exactly on the empty input;
    otherwise it answers true exactly when any two inputs report the same
    device, and its answer does not depend on the order of the inputs,
    although every input is compared with the first one only. *)
Theorem allSameDevice_pairwise dev inputs :
  (THCTensor_allSameDevice dev inputs = None <-> inputs = []) /\
  (THCTensor_allSameDevice dev inputs = Some true <->
   inputs <> [] /\
   forall a b, a ∈ inputs -> b ∈ inputs ->
     THCTensor_getDevice dev a = THCTensor_getDevice dev b) /\
  (forall inputs', inputs ≡ₚ inputs' ->
     THCTensor_allSameDevice dev inputs' = THCTensor_allSameDevice dev inputs).
Proof.
  split; [|split].
  - destruct inputs; simpl; split; try discriminate; reflexivity.
  - apply allSameDevice_true.
  - intros inputs' Hp.
    pose proof (allSameDevice_true dev inputs) as H1.
    pose proof (allSameDevice_true dev inputs') as H2.
    assert (Hiff : THCTensor_allSameDevice dev inputs = Some true <->
                   THCTensor_allSameDevice dev inputs' = Some true).
    { rewrite H1, H2. split; intros [Hne H]; split.
      - intros ->. apply Permutation_nil_r in Hp. congruence.
      - intros a b Ha Hb. apply H; rewrite Hp; assumption.
      - intros ->. apply Permutation_nil_l in Hp. congruence.
      - intros a b Ha Hb. apply H; rewrite <- Hp; assumption. }
    destruct inputs as [|t0 rest]; destruct inputs' as [|t0' rest'].
    + reflexivity.
    + apply Permutation_nil_l in Hp. discriminate.
    + apply Permutation_nil_r in Hp. discriminate.
    + simpl in *.
      destruct (allSameDevice_loop dev (THCTensor_getDevice dev t0) rest);
        destruct (allSameDevice_loop dev (THCTensor_getDevice dev t0') rest');
        try reflexivity.
      * destruct Hiff as [Hiff _]. specialize (Hiff eq_refl). discriminate.
      * destruct Hiff as [_ Hiff]. specialize (Hiff eq_refl). discriminate.
Qed.

(** X15: after [THCTensor_set] from a tensor with a live storage, whether
    it returns or fails on the grow request, [self] reports the device of
    the source, and [allSameDevice] accepts the two of them. *)
Theorem set_same_device dev alloc_ok src s l :
  wf (self s) ->
  positive_sizes src ->
  Forall (fun x => 0 <= x)%Z (strides src) ->
  (0 <= storageOffset src)%Z ->
  storage src = Some l ->
  is_Some (heap s !! l) ->
  (forall l0, storage (self s) = Some l0 -> is_Some (heap s !! l0)) ->
  let t' := self (final (THCTensor_set alloc_ok (Some src) s)) in
  THCTensor_getDevice dev t' = THCTensor_getDevice dev src /\
  THCTensor_allSameDevice dev [t'; src] = Some true.
Proof.
  intros W P Hnn Hoff Hsrc Hl Hvalid. cbv zeta.
  destruct (set_live_source alloc_ok src s l W P Hnn Hoff Hsrc Hl Hvalid)
    as (_ & _ & _ & _ & _ & _ & Hst).
  assert (E : THCTensor_getDevice dev
                (self (final (THCTensor_set alloc_ok (Some src) s)))
              = THCTensor_getDevice dev src)
    by (unfold THCTensor_getDevice; rewrite Hst; reflexivity).
  split; [assumption|].
  cbn [THCTensor_allSameDevice allSameDevice_loop]. rewrite E, Z.eqb_refl. reflexivity.
Qed.

Lemma set_same_device_witness :
  THCTensor_getDevice (fun l => Z.of_nat l)
    (self (final (THCTensor_set always (Some matrix_view)
                    (mkState (one_storage 12 1) fresh_view))))
  = 0%Z.
Proof.
  destruct (set_same_device (fun l => Z.of_nat l) always matrix_view
              (mkState (one_storage 12 1) fresh_view) 0) as [H _].
  - split; simpl; lia.
  - split; [split; simpl; lia|]. unfold sizes; simpl.
    repeat first [apply Forall_nil_2 | apply Forall_cons_2; [lia|]].
  - unfold strides; simpl.
    repeat first [apply Forall_nil_2 | apply Forall_cons_2; [lia|]].
  - simpl. lia.
  - reflexivity.
  - vm_compute. eauto.
  - intros l0 H. discriminate.
  - exact H.
Defined.

(** ** X17: THCTensor_allContiguous *)

Lemma allContiguous_loop_spec inputs :
  allContiguous_loop inputs = true <->
  Forall (fun t => THCTensor_isContiguous t = true) inputs.
Proof.
  induction inputs as [|t rest IH]; simpl.
  - split; [constructor | reflexivity].
  - destruct (THCTensor_isContiguous t) eqn:E; simpl.
    + rewrite IH. split; [intros H; constructor; assumption|].
      intros H. inversion H; assumption.
    + split; [discriminate|]. intros H. inversion H. congruence.
Qed.

(** X17: [allContiguous] fails its assertion exactly on the empty input;
    otherwise it answers true exactly when every input is contiguous, and
    its answer does not depend on the order of the inputs. *)
Theorem allContiguous_every inputs :
  (THCTensor_allContiguous inputs = None <-> inputs = []) /\
  (THCTensor_allContiguous inputs = Some true <->
   inputs <> [] /\ Forall (fun t => THCTensor_isContiguous t = true) inputs) /\
  (forall inputs', inputs ≡ₚ inputs' ->
     THCTensor_allContiguous inputs' = THCTensor_allContiguous inputs).
Proof.
  assert (Htrue : forall l, THCTensor_allContiguous l = Some true <->
            l <> [] /\ Forall (fun t => THCTensor_isContiguous t = true) l).
  { intros [|t rest].
    - simpl. split; [discriminate | intros [H _]; contradiction].
    - unfold THCTensor_allContiguous. rewrite <- allContiguous_loop_spec.
      split; [intros [= H]; split; [discriminate | assumption]|].
      intros [_ H]. f_equal. assumption. }
  split; [|split].
  - destruct inputs; simpl; split; try discriminate; reflexivity.
  - apply Htrue.
  - intros inputs' Hp.
    assert (Hiff : THCTensor_allContiguous inputs = Some true <->
                   THCTensor_allContiguous inputs' = Some true).
    { rewrite !Htrue. split; intros [Hne H]; split.
      - intros ->. apply Permutation_nil_r in Hp. congruence.
      - rewrite <- Hp. assumption.
      - intros ->. apply Permutation_nil_l in Hp. congruence.
      - rewrite Hp. assumption. }
    destruct inputs as [|t0 rest]; destruct inputs' as [|t0' rest'].
    + reflexivity.
    + apply Permutation_nil_l in Hp. discriminate.
    + apply Permutation_nil_r in Hp. discriminate.
    + unfold THCTensor_allContiguous in *.
      destruct (allContiguous_loop (t0 :: rest));
        destruct (allContiguous_loop (t0' :: rest')); try reflexivity.
      * destruct Hiff as [Hiff _]. specialize (Hiff eq_refl). discriminate.
      * destruct Hiff as [_ Hiff]. specialize (Hiff eq_refl). discriminate.
Qed.

(** ** X18, X19: the lifetime of a tensor *)

Lemma wrap32_congr x y : (x mod 2 ^ 32 = y mod 2 ^ 32)%Z -> wrap32 x = wrap32 y.
Proof.
  intros H. unfold wrap32.
  rewrite (Zplus_mod x), (Zplus_mod y), H. reflexivity.
Qed.

Lemma wrap32_eqm x : (wrap32 x mod 2 ^ 32 = x mod 2 ^ 32)%Z.
Proof.
  unfold wrap32.
  rewrite Zminus_mod, Zmod_mod, <- Zminus_mod.
  f_equal. lia.
Qed.

Lemma wrap32_retain_free x : wrap32 (wrap32 (x + 1) - 1) = wrap32 x.
Proof.
  apply wrap32_congr.
  rewrite Zminus_mod, wrap32_eqm, <- Zminus_mod. f_equal. lia.
Qed.

Lemma THCStorage_free_release l h t st :
  h !! l = Some st ->
  THCStorage_free l (mkState h t) = Ok tt (mkState (release h l) t).
Proof.
  intros H. unfold THCStorage_free, release. run. rewrite H. simpl.
  destruct (THCStorage.refcount st - 1 =? 0)%Z; reflexivity.
Qed.

(** X18: for a tensor whose count is a non-zero [int], [retain] followed
    by [free] gives back the tensor as it was and does not touch the heap
    of storages; a tensor whose flag lacks the reference-counting bit is
    left alone by both, whatever its count. *)
Theorem retain_free_round_trip mask o h :
  wrap32 (tensor_refcount o) = tensor_refcount o ->
  tensor_refcount o <> 0%Z ->
  THCTensor_free mask (Some (THCTensor_retain mask o)) h = inr (h, Some o) /\
  (refcounted mask o = false ->
   THCTensor_retain mask o = o /\ THCTensor_free mask (Some o) h = inr (h, Some o)).
Proof.
  intros Hr Hnz. unfold THCTensor_retain, THCTensor_free.
  destruct (refcounted mask o) eqn:B.
  - split; [|discriminate].
    assert (B' : refcounted mask
                   (mkObj (tensor o) (wrap32 (tensor_refcount o + 1)) (flag o)) = true)
      by exact B.
    rewrite B'. cbn [tensor_refcount tensor flag].
    rewrite wrap32_retain_free, Hr.
    replace (tensor_refcount o =? 0)%Z with false
      by (symmetry; apply Z.eqb_neq; assumption).
    destruct o; reflexivity.
  - rewrite B. split; [reflexivity|]. intros _. split; reflexivity.
Qed.

Lemma retain_free_round_trip_witness :
  THCTensor_free 1 (Some (THCTensor_retain 1 (mkObj matrix_view 1 1))) (one_storage 12 1)
  = inr (one_storage 12 1, Some (mkObj matrix_view 1 1)).
Proof.
  apply (retain_free_round_trip 1 (mkObj matrix_view 1 1) (one_storage 12 1)).
  - reflexivity.
  - discriminate.
Defined.

(** X19: freeing a reference-counted tensor whose count is 1 deallocates
    it and drops one reference of its live storage, which is freed in turn
    when that was its last reference; no other storage is touched, and a
    tensor without storage leaves the heap as it is.  A larger count is
    only lowered by one. *)
Theorem free_last_reference mask o h :
  refcounted mask o = true ->
  (tensor_refcount o = 1%Z ->
   (storage (tensor o) = None -> THCTensor_free mask (Some o) h = inr (h, None)) /\
   (forall l st, storage (tensor o) = Some l -> h !! l = Some st ->
      exists h',
        THCTensor_free mask (Some o) h = inr (h', None) /\
        h' !! l = (if (THCStorage.refcount st - 1 =? 0)%Z then None
                   else Some (THCStorage.mk (THCStorage.size st)
                                (THCStorage.scalar_type st)
                                (THCStorage.refcount st - 1))) /\
        forall l', l' <> l -> h' !! l' = h !! l')) /\
  (wrap32 (tensor_refcount o - 1) <> 0%Z ->
   THCTensor_free mask (Some o) h
   = inr (h, Some (mkObj (tensor o) (wrap32 (tensor_refcount o - 1)) (flag o)))).
Proof.
  intros B. unfold THCTensor_free. rewrite B. split.
  - intros ->. cbn [Z.sub Z.add Z.opp Z.pos_sub]. change (wrap32 0 =? 0)%Z with true.
    cbv iota. split.
    + intros ->. reflexivity.
    + intros l st -> Hl. rewrite (THCStorage_free_release l h (tensor o) st Hl).
      exists (release h l). split; [reflexivity|]. split.
      * rewrite (release_lookup h l st l Hl).
        destruct (decide (l = l)); [reflexivity | congruence].
      * intros l' Hne. rewrite (release_lookup h l st l' Hl).
        destruct (decide (l' = l)); [congruence | reflexivity].
  - intros Hnz.
    replace (wrap32 (tensor_refcount o - 1) =? 0)%Z with false
      by (symmetry; apply Z.eqb_neq; assumption).
    reflexivity.
Qed.

Lemma free_last_reference_witness :
  THCTensor_free 1 (Some (mkObj fresh_view 1 1)) (one_storage 12 1)
  = inr (one_storage 12 1, None).
Proof.
  destruct (free_last_reference 1 (mkObj fresh_view 1 1) (one_storage 12 1)) as [H _].
  - reflexivity.
  - destruct H as [H _]; [reflexivity|]. apply H. reflexivity.
Defined.

(** ** X20: resizing to the sizes of another tensor *)

Lemma sizes_seq t :
  wf t -> (fun d => idx (size t) d) <$> seq 0 (nDimension t) = sizes t.
Proof.
  intros W. apply list_eq. intros j. rewrite list_lookup_fmap.
  destruct (decide (j < nDimension t)) as [Hj|Hj].
  - rewrite lookup_seq_lt by assumption. simpl.
    rewrite <- idx_sizes by assumption. symmetry. apply lookup_idx.
    rewrite length_sizes; assumption.
  - rewrite lookup_seq_ge by lia. simpl. symmetry. apply lookup_ge_None_2.
    rewrite length_sizes by assumption. lia.
Qed.

(** X20: [newSizeOf] returns the size array of the tensor and leaves the
    state alone; handing the sizes of a tensor with positive sizes to
    [THCTensor_resize], without strides, gives [self] the dimensionality
    and the size array of that tensor, whatever the outcome of the storage
    request. *)
Theorem resize_to_newSizeOf alloc_ok src h s :
  wf (self s) ->
  positive_sizes src ->
  THCTensor_newSizeOf (mkState h src) = Ok (sizes src) (mkState h src) /\
  let r := THCTensor_resize alloc_ok (Some (sizes src)) None s in
  nDimension (self (final r)) = nDimension src /\
  sizes (self (final r)) = sizes src.
Proof.
  intros W [Ws Ppos]. split.
  - unfold THCTensor_newSizeOf. run. rewrite (sizes_seq src Ws). reflexivity.
  - cbv zeta.
    change (THCTensor_resize alloc_ok (Some (sizes src)) None s)
      with (THCTensor_resizeNd alloc_ok (length (sizes src)) (sizes src) None s).
    rewrite resizeNd_self.
    pose proof (geometry_nDimension (length (sizes src)) (sizes src) None (self s)) as Hn.
    pose proof (geometry_sizes (length (sizes src)) (sizes src) None (self s) W) as Hs.
    rewrite (new_dimension_all_positive _ Ppos) in Hn, Hs.
    rewrite (length_sizes src Ws) in *.
    split; [assumption|]. rewrite Hs. apply take_ge.
    rewrite length_sizes by assumption. lia.
Qed.

Lemma resize_to_newSizeOf_witness :
  sizes (self (final (THCTensor_resize always (Some (sizes matrix_view)) None
                        (mkState (one_storage 0 1) (view_on 0)))))
  = sizes matrix_view.
Proof.
  destruct (resize_to_newSizeOf always matrix_view ∅
              (mkState (one_storage 0 1) (view_on 0))) as [_ [_ H]].
  - split; simpl; lia.
  - split; [split; simpl; lia|]. unfold sizes; simpl.
    repeat first [apply Forall_nil_2 | apply Forall_cons_2; [lia|]].
  - exact H.
Defined.

(** ** X21: squeezing from another tensor *)

Lemma squeeze1d_from_source_witness :
  sizes (self (final (THCTensor_squeeze1d always
                        (Some (mkTensor [4; 1; 3]%Z [3; 3; 1]%Z 3 (Some 0) 0)) 1
                        (mkState (one_storage 12 1) fresh_view))))
  = [4; 3]%Z.
Proof.
  destruct (squeeze1d_from_source always (mkTensor [4; 1; 3]%Z [3; 3; 1]%Z 3 (Some 0) 0)
              (mkState (one_storage 12 1) fresh_view) 0 1) as [_ H].
  - split; simpl; lia.
  - split; [split; simpl; lia|]. unfold sizes; simpl.
    repeat first [apply Forall_nil_2 | apply Forall_cons_2; [lia|]].
  - unfold strides; simpl.
    repeat first [apply Forall_nil_2 | apply Forall_cons_2; [lia|]].
  - simpl. lia.
  - reflexivity.
  - vm_compute. eauto.
  - intros l0 H. discriminate.
  - simpl. lia.
  - destruct H as [H _]; [vm_compute; reflexivity|].
    destruct H as (_ & H & _); [split; [reflexivity | simpl; lia] | exact H].
Defined.

(** ** X22: unsqueezing in place *)

(** X22: [unsqueeze1d] in place raises the argument error, leaving the
    state as it is, when the position exceeds the dimensionality or the
    tensor has no dimension; otherwise it returns with a dimension of size
    1 inserted at the position, the later sizes and strides shifted by
    one, and the new stride equal to the 64-bit product of the size and
    stride that followed, or 1 at the end; storage and heap are untouched. *)
Theorem unsqueeze1d_inserts_axis alloc_ok dimension s :
  wf (self s) ->
  let t := self s in
  let r := THCTensor_unsqueeze1d alloc_ok None dimension s in
  ((nDimension t < dimension \/ nDimension t = 0) -> r = Err (ArgError 3) s) /\
  (dimension <= nDimension t -> 0 < nDimension t ->
   returns r = true /\
   heap (final r) = heap s /\
   storage (self (final r)) = storage t /\
   storageOffset (self (final r)) = storageOffset t /\
   nDimension (self (final r)) = nDimension t + 1 /\
   sizes (self (final r)) = take dimension (sizes t) ++ 1%Z :: drop dimension (sizes t) /\
   strides (self (final r))
   = take dimension (strides t)
     ++ (if dimension <? nDimension t
         then wrap64 (idx (size t) dimension * idx (stride t) dimension)
         else 1%Z)
     :: drop dimension (strides t)).
Proof.
  intros W. cbv zeta. rewrite unsqueeze1d_in_place. split.
  - intros [H|H].
    + replace (dimension <=? nDimension (self s)) with false
        by (symmetry; apply Nat.leb_gt; assumption).
      reflexivity.
    + rewrite H. destruct (dimension <=? 0); reflexivity.
  - intros Hd Hn.
    replace (dimension <=? nDimension (self s)) with true
      by (symmetry; apply Nat.leb_le; assumption).
    replace (0 <? nDimension (self s)) with true
      by (symmetry; apply Nat.ltb_lt; assumption).
    cbn [negb final returns self heap].
    destruct (unsqueeze_tail_spec dimension (self s) W Hd)
      as (_ & N' & St' & Off' & S' & T').
    repeat split; assumption.
Qed.

Lemma unsqueeze1d_inserts_axis_witness :
  strides (self (final (THCTensor_unsqueeze1d always None 1
                          (mkState (one_storage 12 1) matrix_view))))
  = [3; 3; 1]%Z.
Proof.
  destruct (unsqueeze1d_inserts_axis always 1 (mkState (one_storage 12 1) matrix_view))
    as [_ H].
  - split; simpl; lia.
  - destruct H as (_ & _ & _ & _ & _ & _ & H); [simpl; lia | simpl; lia | exact H].
Defined.

(** ** X23: which stride is stored *)

(** X23: when [resizeNd] is not a no-op, each dimension below the new
    dimensionality ends with the requested size and with the requested
    stride if one was supplied for it and is not negative; a missing or
    negative stride selects, for that dimension alone, 1 if it is the last
    one and otherwise the 64-bit product of the next dimension's size and
    stride as they end up. *)
Theorem resizeNd_stored_strides alloc_ok n sz sd s :
  wf (self s) ->
  THCTensor_resizeNd alloc_ok n sz sd s <> Ok tt s ->
  let t' := self (final (THCTensor_resizeNd alloc_ok n sz sd s)) in
  forall d, d < leading_positive (take n sz) ->
    idx (size t') d = idx sz d /\
    idx (stride t') d
    = match sd with
      | Some st =>
        if (0 <=? idx st d)%Z then idx st d
        else if d =? nDimension t' - 1 then 1%Z
             else wrap64 (idx (size t') (d + 1) * idx (stride t') (d + 1))
      | None =>
        if d =? nDimension t' - 1 then 1%Z
        else wrap64 (idx (size t') (d + 1) * idx (stride t') (d + 1))
      end.
Proof.
  intros W Hrun. cbv zeta. intros d Hd.
  assert (Hnoop : is_noop n sz sd (self s) = false).
  { destruct (is_noop n sz sd (self s)) eqn:E; [|reflexivity].
    exfalso. apply Hrun. apply resizeNd_noop_run. assumption. }
  rewrite resizeNd_self.
  destruct (geometry_written n sz sd (self s) W Hnoop) as [_ Hw].
  destruct (Hw d Hd) as [E1 E2]. split; [assumption|].
  rewrite E2. unfold stored_stride, explicit_stride, default_stride.
  destruct sd as [st|]; [destruct (0 <=? idx st d)%Z|]; reflexivity.
Qed.

Lemma resizeNd_stored_strides_witness :
  idx (stride (self (final (THCTensor_resizeNd always 2 [4; 3]%Z (Some [-1; 2]%Z)
                              (mkState (one_storage 0 1) (view_on 0)))))) 0
  = 6%Z.
Proof.
  destruct (resizeNd_stored_strides always 2 [4; 3]%Z (Some [-1; 2]%Z)
              (mkState (one_storage 0 1) (view_on 0))) with (d := 0) as [_ H].
  - split; simpl; lia.
  - vm_compute. discriminate.
  - simpl. lia.
  - rewrite H. vm_compute. reflexivity.
Defined.
